(** * SHA-256 reference implementation ([sha256_reference.py])

    A shallow embedding of the Python module and the properties its
    specification states about it.

    Python integers are unbounded, so they are modelled as [Z] and every
    [& 0xffffffff] of the source is written out.  [bytes] and [bytearray]
    values are lists of [Byte.byte], Python lists of integers are [list Z],
    and [str] is [string].  A Python exception ([struct.error],
    [IndexError], [ValueError]) is the [None] of the option monad. *)

From Stdlib Require Import ZArith List Lia Strings.Byte Ascii String.
From stdpp Require Import base tactics option list relations.
From Equations Require Import Equations.

Local Open Scope Z_scope.

(** ** Python built-ins used by the module *)

(** [len(x)], an integer. *)
Definition len {A} (l : list A) : Z := Z.of_nat (length l).

Definition Z_of_byte (b : byte) : Z := Z.of_N (Byte.to_N b).

Definition byte_of_Z (z : Z) : byte :=
  default x00 (Byte.of_N (Z.to_N (z mod 256))).

(** The value of a big-endian byte string, as [struct.unpack] reads one
    field. *)
Definition be_int (bs : list byte) : Z :=
  fold_left (fun acc b => acc * 256 + Z_of_byte b) bs 0.

(** [struct.pack('>Q', n)]: eight bytes, most significant first;
    [struct.error] when [n] does not fit an unsigned 64-bit field. *)
Definition pack_Q (n : Z) : option (list byte) :=
  if decide (0 <= n < 2 ^ 64)
  then Some (map (fun k => byte_of_Z (Z.shiftr n (8 * k))) [7; 6; 5; 4; 3; 2; 1; 0])
  else None.

(** [msg[i:j]] for [0 <= i <= j]: a slice is cut short at the end of the
    sequence and never raises. *)
Definition slice {A} (l : list A) (i j : nat) : list A := take (j - i) (drop i l).

(** [struct.unpack('>16I', chunk)]: sixteen unsigned 32-bit big-endian
    fields; [struct.error] unless the buffer holds exactly 64 bytes. *)
Definition unpack_16I (chunk : list byte) : option (list Z) :=
  if decide (length chunk = 64%nat)
  then Some (map (fun i => be_int (slice chunk (4 * i) (4 * i + 4))) (seq 0 16))
  else None.

(** [l[i]] for [0 <= i]: [IndexError] out of range. *)
Definition get_item {A} (l : list A) (i : nat) : option A := l !! i.

(** [l[i] = v] for [0 <= i]: [IndexError] out of range. *)
Definition set_item {A} (l : list A) (i : nat) (v : A) : option (list A) :=
  if decide (i < length l)%nat then Some (<[i := v]> l) else None.

(** [for i in range: s = body(i, s)], stopping at the first exception. *)
Fixpoint for_in {S} (body : nat -> S -> option S) (range : list nat) (s : S) : option S :=
  match range with
  | [] => Some s
  | i :: range' => s' ← body i s; for_in body range' s'
  end.

(** ** [_rightrotate] *)

Definition mask32 : Z := 0xffffffff.

(** Every call site passes a literal count [b] between 2 and 25, so the
    shift counts [b] and [32 - b] are never negative. *)
Definition _rightrotate (n b : Z) : Z :=
  Z.land (Z.lor (Z.shiftr n b) (Z.shiftl n (32 - b))) mask32.

(** ** Padding (source lines 46-56) *)

(** [while (len(msg) * 8) % 512 != 448: msg.append(0x00)] *)
Equations? append_zeros (msg : list byte) : list byte
  by wf (Z.to_nat ((448 - len msg * 8) mod 512)) lt :=
append_zeros msg with decide ((len msg * 8) mod 512 = 448) := {
  | left _ := msg
  | right _ := append_zeros (msg ++ [x00]) }.
Proof.
  unfold len in *. rewrite length_app, Nat2Z.inj_add. simpl length.
  apply Z2Nat.inj_lt; try (apply Z.mod_pos_bound; lia).
  Z.to_euclidean_division_equations. lia.
Qed.

Definition pad (data : list byte) : option (list byte) :=
  let msg_len := len data * 8 in
  let msg := data in
  let msg := msg ++ [x80] in
  let msg := append_zeros msg in
  packed ← pack_Q msg_len;
  Some (msg ++ packed).

(** ** Message schedule (source lines 62-69) *)

(** One pass of [for i in range(16, 64)]: reads [w[i-15]], [w[i-2]],
    [w[i-16]] and [w[i-7]] and appends one word.  [i >= 16], so no index
    is negative. *)
Definition extend_w (i : nat) (w : list Z) : option (list Z) :=
  w15 ← get_item w (i - 15);
  let s0 := Z.lxor (Z.lxor (_rightrotate w15 7) (_rightrotate w15 18)) (Z.shiftr w15 3) in
  w2 ← get_item w (i - 2);
  let s1 := Z.lxor (Z.lxor (_rightrotate w2 17) (_rightrotate w2 19)) (Z.shiftr w2 10) in
  w16 ← get_item w (i - 16);
  w7 ← get_item w (i - 7);
  Some (w ++ [Z.land (w16 + s0 + w7 + s1) mask32]).

Definition schedule (chunk : list byte) : option (list Z) :=
  w ← unpack_16I chunk;
  for_in extend_w (seq 16 48) w.

(** ** Compression of one chunk (source lines 71-100) *)

(** The local variables of [_sha256] that are live while a chunk is
    compressed.  [K] and [h] are Python lists, so mutable objects: they are
    part of the state, and that the rounds leave them alone is a theorem
    rather than a consequence of the types. *)
Module Locals.
Record t : Type := mk {
  K : list Z; h : list Z; w : list Z;
  a : Z; b : Z; c : Z; d : Z; e : Z; f : Z; g : Z; h_val : Z }.

Definition set_h (h' : list Z) (s : t) : t :=
  mk (K s) h' (w s) (a s) (b s) (c s) (d s) (e s) (f s) (g s) (h_val s).

(** The working variables, in the order of the state words. *)
Definition working (s : t) : list Z :=
  [a s; b s; c s; d s; e s; f s; g s; h_val s].
End Locals.

(** [a, b, c, d, e, f, g, h_val = h]: [ValueError] unless [h] holds exactly
    eight items. *)
Definition unpack_h (K h w : list Z) : option Locals.t :=
  match h with
  | [a; b; c; d; e; f; g; h_val] => Some (Locals.mk K h w a b c d e f g h_val)
  | _ => None
  end.

(** One pass of the main compression loop, [for i in range(64)]. *)
Definition round (i : nat) (s : Locals.t) : option Locals.t :=
  let '(Locals.mk K h w a b c d e f g h_val) := s in
  let S1 := Z.lxor (Z.lxor (_rightrotate e 6) (_rightrotate e 11)) (_rightrotate e 25) in
  let ch := Z.lxor (Z.land e f) (Z.land (Z.lnot e) g) in
  K_i ← get_item K i;
  w_i ← get_item w i;
  let temp1 := Z.land (h_val + S1 + ch + K_i + w_i) mask32 in
  let S0 := Z.lxor (Z.lxor (_rightrotate a 2) (_rightrotate a 13)) (_rightrotate a 22) in
  let maj := Z.lxor (Z.lxor (Z.land a b) (Z.land a c)) (Z.land b c) in
  let temp2 := Z.land (S0 + maj) mask32 in
  let h_val := g in
  let g := f in
  let f := e in
  let e := Z.land (d + temp1) mask32 in
  let d := c in
  let c := b in
  let b := a in
  let a := Z.land (temp1 + temp2) mask32 in
  Some (Locals.mk K h w a b c d e f g h_val).

(** [h[i] = (h[i] + v) & 0xffffffff] *)
Definition add_to_h (i : nat) (v : Z) (s : Locals.t) : option Locals.t :=
  h_i ← get_item (Locals.h s) i;
  h' ← set_item (Locals.h s) i (Z.land (h_i + v) mask32);
  Some (Locals.set_h h' s).

(** Source lines 93-100, in order. *)
Definition accumulate (s : Locals.t) : option Locals.t :=
  s ← add_to_h 0 (Locals.a s) s;
  s ← add_to_h 1 (Locals.b s) s;
  s ← add_to_h 2 (Locals.c s) s;
  s ← add_to_h 3 (Locals.d s) s;
  s ← add_to_h 4 (Locals.e s) s;
  s ← add_to_h 5 (Locals.f s) s;
  s ← add_to_h 6 (Locals.g s) s;
  add_to_h 7 (Locals.h_val s) s.

Definition rounds (s : Locals.t) : option Locals.t := for_in round (seq 0 64) s.

(** The body of [for chunk_start in range(0, len(msg), 64)].  Between two
    chunks only [K] and [h] are live: [w] and the working variables are
    assigned afresh before they are read. *)
Definition process_chunk (msg : list byte) (chunk_start : nat) (Kh : list Z * list Z)
  : option (list Z * list Z) :=
  let chunk := slice msg chunk_start (chunk_start + 64) in
  w ← schedule chunk;
  s ← unpack_h Kh.1 Kh.2 w;
  s ← rounds s;
  s ← accumulate s;
  Some (Locals.K s, Locals.h s).

(** [range(0, stop, 64)] *)
Definition range_64 (stop : nat) : list nat :=
  map (fun k => 64 * k)%nat (seq 0 (Nat.div (stop + 63) 64)).

(** ** Rendering (source line 103) *)

Definition hex_digit (n : N) : ascii :=
  nth (N.to_nat n) (list_ascii_of_string "0123456789abcdef") "0"%char.

(** The digits of [format(n, 'x')] for [n >= 0]. *)
Equations? hex_digits (n : N) : string by wf (N.to_nat (N.log2 n)) lt :=
hex_digits n with decide (n < 16)%N := {
  | left _ := String (hex_digit n) EmptyString
  | right _ := String.append (hex_digits (n / 16)) (String (hex_digit (n mod 16)) EmptyString) }.
Proof.
  change 16%N with (2 ^ 4)%N. rewrite <- N.shiftr_div_pow2, N.log2_shiftr.
  assert (4 <= N.log2 n)%N by (apply (N.log2_le_pow2 n 4); lia). lia.
Qed.

(** [str.zfill]-style left padding with ['0'] up to [width] characters. *)
Definition zero_fill (width : nat) (s : string) : string :=
  String.append (string_of_list_ascii (repeat "0"%char (width - String.length s))) s.

(** [f'{x:08x}']: the sign, if any, counts towards the width of 8. *)
Definition format_08x (x : Z) : string :=
  if decide (x < 0)
  then String "-" (zero_fill 7 (hex_digits (Z.to_N (- x))))
  else zero_fill 8 (hex_digits (Z.to_N x)).

(** [''.join(f'{x:08x}' for x in h)] *)
Definition hexdigest (h : list Z) : string :=
  String.concat EmptyString (map format_08x h).

(** ** [_sha256] and [sha256] *)

(** The list literals that every call of [_sha256] builds anew: the table
    [K], row by row as the source lays it out, and the initial [h]. *)
Definition K_init : list Z :=
  [0x428a2f98; 0x71374491; 0xb5c0fbcf; 0xe9b5dba5; 0x3956c25b; 0x59f111f1; 0x923f82a4; 0xab1c5ed5] ++
  [0xd807aa98; 0x12835b01; 0x243185be; 0x550c7dc3; 0x72be5d74; 0x80deb1fe; 0x9bdc06a7; 0xc19bf174] ++
  [0xe49b69c1; 0xefbe4786; 0x0fc19dc6; 0x240ca1cc; 0x2de92c6f; 0x4a7484aa; 0x5cb0a9dc; 0x76f988da] ++
  [0x983e5152; 0xa831c66d; 0xb00327c8; 0xbf597fc7; 0xc6e00bf3; 0xd5a79147; 0x06ca6351; 0x14292967] ++
  [0x27b70a85; 0x2e1b2138; 0x4d2c6dfc; 0x53380d13; 0x650a7354; 0x766a0abb; 0x81c2c92e; 0x92722c85] ++
  [0xa2bfe8a1; 0xa81a664b; 0xc24b8b70; 0xc76c51a3; 0xd192e819; 0xd6990624; 0xf40e3585; 0x106aa070] ++
  [0x19a4c116; 0x1e376c08; 0x2748774c; 0x34b0bcb5; 0x391c0cb3; 0x4ed8aa4a; 0x5b9cca4f; 0x682e6ff3] ++
  [0x748f82ee; 0x78a5636f; 0x84c87814; 0x8cc70208; 0x90befffa; 0xa4506ceb; 0xbef9a3f7; 0xc67178f2].

Definition h_init : list Z :=
  [ 0x6a09e667; 0xbb67ae85; 0x3c6ef372; 0xa54ff53a;
    0x510e527f; 0x9b05688c; 0x1f83d9ab; 0x5be0cd19 ].

(** The chunk loop of [_sha256], from the state [(K, h)]. *)
Definition chunk_loop (msg : list byte) (Kh : list Z * list Z) : option (list Z * list Z) :=
  for_in (process_chunk msg) (range_64 (length msg)) Kh.

(** [data] is a [bytes] value, so the [isinstance(data, str)] branch is not
    taken; [bytearray(data)] copies it, and the copy alone is appended to. *)
Definition _sha256 (data : list byte) : option string :=
  let K := K_init in
  let h := h_init in
  msg ← pad data;
  Kh ← chunk_loop msg (K, h);
  Some (hexdigest Kh.2).

(** The default argument [b''] is the empty list. *)
Definition sha256 (data : list byte) : option string := _sha256 data.

(** ** Specification-side definitions *)

(** A 32-bit unsigned word. *)
Definition is_word (x : Z) : Prop := 0 <= x < 2 ^ 32.

(** The bit-length fits the 64-bit length field. *)
Definition fits_length_field (data : list byte) : Prop := len data * 8 < 2 ^ 64.

(** The number of zero bytes that bring [data ++ [0x80]] to 56 bytes
    modulo 64. *)
Definition zero_count (data : list byte) : nat := Z.to_nat ((55 - len data) mod 64).

(** 32-bit circular right rotation, as arithmetic on the word: the [n] low
    bits move to the top, the others move down by [n]. *)
Definition rotr (x n : Z) : Z := x / 2 ^ n + (x mod 2 ^ n) * 2 ^ (32 - n).

Definition sigma0 (x : Z) : Z := Z.lxor (Z.lxor (rotr x 7) (rotr x 18)) (Z.shiftr x 3).
Definition sigma1 (x : Z) : Z := Z.lxor (Z.lxor (rotr x 17) (rotr x 19)) (Z.shiftr x 10).

(** The recurrence of the schedule, read off a finished list [w]. *)
Definition recurrence_at (w : list Z) (i : nat) : Prop :=
  exists w16 w15 w7 w2 : Z,
    w !! (i - 16)%nat = Some w16 /\ w !! (i - 15)%nat = Some w15 /\
    w !! (i - 7)%nat = Some w7 /\ w !! (i - 2)%nat = Some w2 /\
    w !! i = Some ((w16 + sigma0 w15 + w7 + sigma1 w2) mod 2 ^ 32).

(** The big-endian 32-bit word made of four bytes. *)
Definition be32 (b0 b1 b2 b3 : byte) : Z :=
  Z_of_byte b0 * 2 ^ 24 + Z_of_byte b1 * 2 ^ 16 + Z_of_byte b2 * 2 ^ 8 + Z_of_byte b3.

(** What a pass of the compression loop may change: the working
    variables, and nothing else. *)
Definition same_lists (s t : Locals.t) : Prop :=
  Locals.K t = Locals.K s /\ Locals.h t = Locals.h s /\ Locals.w t = Locals.w s.

(** Word-wise addition modulo [2^32]. *)
Definition add_words (h vars : list Z) : list Z :=
  zip_with (fun x v => (x + v) mod 2 ^ 32) h vars.

(** The characters of a string. *)
Definition chars (s : string) : list ascii := list_ascii_of_string s.


(** The [k] low hexadecimal digits of [n], most significant first. *)
Fixpoint hex_fixed (k : nat) (n : N) : list ascii :=
  match k with
  | O => []
  | Datatypes.S k' => hex_fixed k' (n / 16) ++ [hex_digit (n mod 16)]
  end.

(** The four bytes of a word, most significant first. *)
Definition word_bytes (x : Z) : list byte :=
  map (fun k => byte_of_Z (Z.shiftr x (8 * k))) [3; 2; 1; 0].

(** The 32-byte digest: the state words, concatenated big-endian. *)
Definition digest_bytes (h : list Z) : list byte := flat_map word_bytes h.

(** [bytes.hex()]: two lowercase hexadecimal digits per byte. *)
Definition hexlify (raw : list byte) : string :=
  string_of_list_ascii (flat_map (fun b => hex_fixed 2 (Byte.to_N b)) raw).

(** The invariant of the chunk loop on the state [(K, h)]. *)
Definition state_ok (Kh : list Z * list Z) : Prop :=
  Kh.1 = K_init /\ length Kh.2 = 8%nat /\ Forall is_word Kh.2.

(** [str.lower()] on ASCII text, and equality up to letter case. *)
Definition lower_ascii (c : ascii) : ascii :=
  let n := N_of_ascii c in
  if ((65 <=? n) && (n <=? 90))%N then ascii_of_N (n + 32) else c.

Definition lower (s : string) : string :=
  string_of_list_ascii (map lower_ascii (chars s)).

Definition eq_ignoring_case (s t : string) : Prop := lower s = lower t.

(** ** The round of FIPS 180-4, on 32-bit words *)

(** The 32-bit complement. *)
Definition not32 (x : Z) : Z := 2 ^ 32 - 1 - x.

Definition Ch (x y z : Z) : Z := Z.lxor (Z.land x y) (Z.land (not32 x) z).
Definition Maj (x y z : Z) : Z := Z.lxor (Z.lxor (Z.land x y) (Z.land x z)) (Z.land y z).
Definition Sigma0 (x : Z) : Z := Z.lxor (Z.lxor (rotr x 2) (rotr x 13)) (rotr x 22).
Definition Sigma1 (x : Z) : Z := Z.lxor (Z.lxor (rotr x 6) (rotr x 11)) (rotr x 25).

(** One step on the eight working variables [a .. h], with the round
    constant [K_t] and the schedule word [W_t]. *)
Definition fips_step (K_t W_t : Z) (v : list Z) : list Z :=
  match v with
  | [a; b; c; d; e; f; g; h] =>
      let T1 := (h + Sigma1 e + Ch e f g + K_t + W_t) mod 2 ^ 32 in
      let T2 := (Sigma0 a + Maj a b c) mod 2 ^ 32 in
      [(T1 + T2) mod 2 ^ 32; a; b; c; (d + T1) mod 2 ^ 32; e; f; g]
  | _ => v
  end.

(** The steps [t = 0 .. n - 1] in order. *)
Definition fips_steps (K W : list Z) (n : nat) (v : list Z) : list Z :=
  fold_left (fun v t => fips_step (nth t K 0) (nth t W 0) v) (seq 0 n) v.

(** ** Reading hexadecimal *)

(** The value of a lowercase hexadecimal digit, as [int(c, 16)] gives it. *)
Definition digit_value (c : ascii) : N :=
  let n := N_of_ascii c in
  if ((48 <=? n) && (n <=? 57))%N then (n - 48)%N
  else if ((97 <=? n) && (n <=? 102))%N then (n - 87)%N
  else 0%N.

(** The value of a string of hexadecimal digits, as [int(s, 16)] gives
    it. *)
Definition hex_value (cs : list ascii) : N :=
  fold_left (fun acc c => acc * 16 + digit_value c)%N cs 0%N.

(** ** SHA-256 as a function on lists, after FIPS 180-4

    No exceptions, no mutable state: the padded message is written down
    in one go, cut into blocks, and the blocks are folded into the state. *)

Definition fips_pad (data : list byte) : list byte :=
  data ++ [x80] ++ repeat x00 (zero_count data)
       ++ map (fun k => byte_of_Z (len data * 8 / 2 ^ (8 * k))) [7; 6; 5; 4; 3; 2; 1; 0].

(** The big-endian words of a block. *)
Fixpoint words_of (bs : list byte) : list Z :=
  match bs with
  | b0 :: b1 :: b2 :: b3 :: rest => be32 b0 b1 b2 b3 :: words_of rest
  | _ => []
  end.

(** The next word of the schedule, [W_t] for [t = length w]. *)
Definition fips_extend (w : list Z) : list Z :=
  let t := length w in
  w ++ [(nth (t - 16) w 0 + sigma0 (nth (t - 15) w 0)
         + nth (t - 7) w 0 + sigma1 (nth (t - 2) w 0)) mod 2 ^ 32].

Definition fips_schedule (block : list byte) : list Z :=
  Nat.iter 48 fips_extend (words_of block).

Definition fips_compress (h : list Z) (block : list byte) : list Z :=
  add_words h (fips_steps K_init (fips_schedule block) 64 h).

(** The first [n] blocks of 64 bytes. *)
Fixpoint blocks (n : nat) (msg : list byte) : list (list byte) :=
  match n with
  | O => []
  | Datatypes.S n' => take 64 msg :: blocks n' (drop 64 msg)
  end.

Definition fips_sha256 (data : list byte) : list byte :=
  let msg := fips_pad data in
  digest_bytes (fold_left fips_compress (blocks (length msg / 64) msg) h_init).

(** ** The argument of [_sha256]: [bytes] or [str]

    A [str] is a sequence of code points, numbers below [0x110000]. *)
Inductive py_data : Type :=
| Bytes (b : list byte)
| Str (s : list N).

Definition byte_of_N (n : N) : byte := byte_of_Z (Z.of_N n).

(** The UTF-8 form of one code point.  A surrogate ([0xD800 .. 0xDFFF])
    has none: [str.encode('utf-8')] raises [UnicodeEncodeError].  A number
    from [0x110000] on is no code point, and no [str] holds one. *)
Definition utf8_encode_char (c : N) : option (list byte) :=
  (if c <? 0x80 then Some [byte_of_N c]
   else if c <? 0x800 then
     Some [byte_of_N (0xC0 + c / 64); byte_of_N (0x80 + c mod 64)]
   else if (0xD800 <=? c) && (c <=? 0xDFFF) then None
   else if c <? 0x10000 then
     Some [byte_of_N (0xE0 + c / 4096); byte_of_N (0x80 + (c / 64) mod 64);
           byte_of_N (0x80 + c mod 64)]
   else if c <? 0x110000 then
     Some [byte_of_N (0xF0 + c / 262144); byte_of_N (0x80 + (c / 4096) mod 64);
           byte_of_N (0x80 + (c / 64) mod 64); byte_of_N (0x80 + c mod 64)]
   else None)%N.

(** [s.encode('utf-8')] *)
Fixpoint encode_utf8 (s : list N) : option (list byte) :=
  match s with
  | [] => Some []
  | c :: s' => bs ← utf8_encode_char c; rest ← encode_utf8 s'; Some (bs ++ rest)
  end.

(** [_sha256] on either kind of argument: the [isinstance(data, str)]
    branch, then the body that [_sha256] embeds. *)
Definition _sha256_data (data : py_data) : option string :=
  match data with
  | Str s => encoded ← encode_utf8 s; _sha256 encoded
  | Bytes b => _sha256 b
  end.

Definition sha256_data (data : py_data) : option string := _sha256_data data.

(** A code point that UTF-8 can carry. *)
Definition is_scalar (c : N) : Prop := (c < 0xD800 \/ 0xDFFF < c < 0x110000)%N.

(** ** The self-test of the module (source lines 111-136) *)

Definition test_vectors : list (list byte * string) :=
  [ ([], "e3b0c44298fc1c149afbf4c8996fb92427ae41e4649b934ca495991b7852b855"%string);
    (list_byte_of_string "abc",
     "ba7816bf8f01cfea414140de5dae2223b00361a396177a9cb410ff61f20015ad"%string);
    (list_byte_of_string "abcdbcdecdefdefgefghfghighijhijkijkljklmklmnlmnomnopnopq",
     "248d6a61d20638b8e5c026930c3e6039a33ce45964ff2167f6ecedd419db06c1"%string) ].

(** One byte inside [repr(data)], between quotes [quote]. *)
Definition repr_byte (quote c : byte) : list ascii :=
  if Byte.eqb c quote || Byte.eqb c x5c then [ascii_of_byte x5c; ascii_of_byte c]
  else if Byte.eqb c x09 then [ascii_of_byte x5c; "t"%char]
  else if Byte.eqb c x0a then [ascii_of_byte x5c; "n"%char]
  else if Byte.eqb c x0d then [ascii_of_byte x5c; "r"%char]
  else if ((Byte.to_N c <? 32) || (127 <=? Byte.to_N c))%N
    then [ascii_of_byte x5c; "x"%char;
          hex_digit (Byte.to_N c / 16); hex_digit (Byte.to_N c mod 16)]
  else [ascii_of_byte c].

(** [repr(data)] of a [bytes] value: single quotes, unless the value holds
    a single quote and no double quote. *)
Definition repr_bytes (data : list byte) : string :=
  let quote :=
    if existsb (Byte.eqb x27) data && negb (existsb (Byte.eqb x22) data)
    then x22 else x27 in
  string_of_list_ascii
    ("b"%char :: ascii_of_byte quote :: flat_map (repr_byte quote) data
       ++ [ascii_of_byte quote]).

(** ["=" * 80] *)
Definition rule : string := string_of_list_ascii (repeat "="%char 80).

(** The body of [for data, expected in test_vectors]: the state is
    [all_pass] and the lines printed so far. *)
Definition run_vector (v : list byte * string) (st : bool * list string)
  : option (bool * list string) :=
  let '(data, expected) := v in
  let '(all_pass, out) := st in
  result ← sha256 data;
  let passed := String.eqb result expected in
  let all_pass := all_pass && passed in
  let status := if passed then "PASS"%string else "FAIL"%string in
  Some (all_pass,
        out ++ [String.append "[" (String.append status "]");
                String.append "  Input:    " (repr_bytes data);
                String.append "  Expected: " expected;
                String.append "  Got:      " result;
                EmptyString]).

Fixpoint run_vectors (vs : list (list byte * string)) (st : bool * list string)
  : option (bool * list string) :=
  match vs with
  | [] => Some st
  | v :: vs' => st' ← run_vector v st; run_vectors vs' st'
  end.

(** The lines the module prints when run over the table [vs]. *)
Definition main (vs : list (list byte * string)) : option (list string) :=
  let out := ["SHA-256 Test Vectors (NIST FIPS 180-4):"%string; rule] in
  '(all_pass, out) ← run_vectors vs (true, out);
  let verdict :=
    if all_pass : bool then "All tests passed!"%string else "Some tests failed!"%string in
  Some (out ++ [rule; String.append "Overall: " verdict]).

(** A vector whose expected string is the digest of its input. *)
Definition vector_passes (v : list byte * string) : Prop := sha256 v.1 = Some v.2.

(** ** Calls on the heap of Python objects

    What survives from one call to the next is the heap: the objects the
    caller holds, and whatever earlier calls left behind.  A location is
    an index into the heap, and a new object goes at its end.  Mutable
    objects (lists, bytearrays) live on the heap; integers, [bytes] values
    that the call itself makes and the [str] it returns are immutable and
    are passed as values. *)
Inductive object : Type :=
| Olist (items : list Z)
| Obytes (b : list byte)
| Obytearray (b : list byte)
| Ostr (s : list N).

(** A statement: it runs on a heap and gives a value or raises ([None]),
    and in either case leaves a heap: an exception undoes nothing. *)
Definition prog (A : Type) : Type := list object -> option A * list object.

Definition ret {A} (a : A) : prog A := fun σ => (Some a, σ).

Definition bind {A B} (m : prog A) (k : A -> prog B) : prog B :=
  fun σ => match m σ with (Some a, σ') => k a σ' | (None, σ') => (None, σ') end.

Notation "'let*' x ':=' m 'in' k" := (bind m (fun x => k))
  (at level 10, x name, m at level 100, k at level 200).
Notation "m ';;' k" := (bind m (fun _ => k))
  (at level 100, k at level 200, right associativity).

(** A value that may be an exception. *)
Definition lift {A} (o : option A) : prog A := fun σ => (o, σ).

(** A list display, [bytearray(...)] or a slice: a new object. *)
Definition new (o : object) : prog nat := fun σ => (Some (length σ), σ ++ [o]).

Definition list_items (l : nat) : prog (list Z) :=
  fun σ => match σ !! l with Some (Olist items) => (Some items, σ) | _ => (None, σ) end.

(** [l[i]] *)
Definition list_getitem (l i : nat) : prog Z :=
  let* items := list_items l in lift (get_item items i).

(** [l[i] = v], in place. *)
Definition list_setitem (l i : nat) (v : Z) : prog unit :=
  fun σ => match σ !! l with
           | Some (Olist items) =>
               match set_item items i v with
               | Some items' => (Some tt, <[l := Olist items']> σ)
               | None => (None, σ)
               end
           | _ => (None, σ)
           end.

(** [l.append(v)], in place. *)
Definition list_append (l : nat) (v : Z) : prog unit :=
  fun σ => match σ !! l with
           | Some (Olist items) => (Some tt, <[l := Olist (items ++ [v])]> σ)
           | _ => (None, σ)
           end.

Definition bytearray_items (m : nat) : prog (list byte) :=
  fun σ => match σ !! m with Some (Obytearray b) => (Some b, σ) | _ => (None, σ) end.

(** [m.append(c)] and [m.extend(bs)], in place. *)
Definition bytearray_extend (m : nat) (bs : list byte) : prog unit :=
  fun σ => match σ !! m with
           | Some (Obytearray b) => (Some tt, <[m := Obytearray (b ++ bs)]> σ)
           | _ => (None, σ)
           end.

Definition bytearray_append (m : nat) (c : byte) : prog unit := bytearray_extend m [c].

(** An item of a list given to [bytearray(...)]: [ValueError] unless it is
    in [range(256)]. *)
Definition byte_of_item (x : Z) : option byte :=
  if decide (0 <= x < 256) then Some (byte_of_Z x) else None.

(** The bytes that [len(data)] counts and [bytearray(data)] copies, after
    the [isinstance(data, str)] branch has encoded a [str]. *)
Definition object_bytes (o : object) : option (list byte) :=
  match o with
  | Ostr s => encode_utf8 s
  | Obytes b => Some b
  | Obytearray b => Some b
  | Olist items => mapM byte_of_item items
  end.

Definition argument_bytes (data : nat) : prog (list byte) :=
  fun σ => (σ !! data ≫= object_bytes, σ).

(** [for i in range: s = body(i, s)] over statements. *)
Fixpoint for_each {S} (range : list nat) (body : nat -> S -> prog S) (s : S) : prog S :=
  match range with
  | [] => ret s
  | i :: range' => let* s' := body i s in for_each range' body s'
  end.

(** A value together with the fact that it is this value, for a match
    that must not forget it. *)
Definition inspect {A} (a : A) : {b : A | a = b} := exist _ a eq_refl.

(** The loop guard of the padding, on the object [msg]. *)
Definition zeros_left (msg : nat) (σ : list object) : nat :=
  match σ !! msg with
  | Some (Obytearray b) => Z.to_nat ((448 - len b * 8) mod 512)
  | _ => 0
  end.

(** [while (len(msg) * 8) % 512 != 448: msg.append(0x00)] *)
Equations? pad_zeros (msg : nat) (σ : list object) : option unit * list object
  by wf (zeros_left msg σ) lt :=
pad_zeros msg σ with inspect (σ !! msg) := {
  | exist _ (Some (Obytearray b)) Hb with decide ((len b * 8) mod 512 = 448) := {
    | left _ := (Some tt, σ)
    | right _ := pad_zeros msg (<[msg := Obytearray (b ++ [x00])]> σ) }
  | exist _ _ _ := (None, σ) }.
Proof.
  unfold zeros_left. rewrite Hb.
  rewrite list_lookup_insert_eq by (eapply lookup_lt_Some, Hb).
  unfold len in *. rewrite length_app, Nat2Z.inj_add. simpl length.
  apply Z2Nat.inj_lt; try (apply Z.mod_pos_bound; lia).
  Z.to_euclidean_division_equations. lia.
Qed.

(** The working variables [a .. h_val] of [_sha256]: integers, local to
    the call. *)
Module Work.
Record t : Type := mk { a : Z; b : Z; c : Z; d : Z; e : Z; f : Z; g : Z; h_val : Z }.

Definition items (v : t) : list Z := [a v; b v; c v; d v; e v; f v; g v; h_val v].
End Work.

(** [a, b, c, d, e, f, g, h_val = h] *)
Definition unpack_work (items : list Z) : option Work.t :=
  match items with
  | [a; b; c; d; e; f; g; h_val] => Some (Work.mk a b c d e f g h_val)
  | _ => None
  end.

(** One pass of [for i in range(16, 64)] on the list object [w]. *)
Definition extend_w_at (w i : nat) : prog unit :=
  let* w15 := list_getitem w (i - 15) in
  let s0 := Z.lxor (Z.lxor (_rightrotate w15 7) (_rightrotate w15 18)) (Z.shiftr w15 3) in
  let* w2 := list_getitem w (i - 2) in
  let s1 := Z.lxor (Z.lxor (_rightrotate w2 17) (_rightrotate w2 19)) (Z.shiftr w2 10) in
  let* w16 := list_getitem w (i - 16) in
  let* w7 := list_getitem w (i - 7) in
  list_append w (Z.land (w16 + s0 + w7 + s1) mask32).

(** One pass of [for i in range(64)]: it reads the list objects [K] and
    [w] and assigns the working variables. *)
Definition round_at (K w i : nat) (v : Work.t) : prog Work.t :=
  let '(Work.mk a b c d e f g h_val) := v in
  let S1 := Z.lxor (Z.lxor (_rightrotate e 6) (_rightrotate e 11)) (_rightrotate e 25) in
  let ch := Z.lxor (Z.land e f) (Z.land (Z.lnot e) g) in
  let* K_i := list_getitem K i in
  let* w_i := list_getitem w i in
  let temp1 := Z.land (h_val + S1 + ch + K_i + w_i) mask32 in
  let S0 := Z.lxor (Z.lxor (_rightrotate a 2) (_rightrotate a 13)) (_rightrotate a 22) in
  let maj := Z.lxor (Z.lxor (Z.land a b) (Z.land a c)) (Z.land b c) in
  let temp2 := Z.land (S0 + maj) mask32 in
  let h_val := g in
  let g := f in
  let f := e in
  let e := Z.land (d + temp1) mask32 in
  let d := c in
  let c := b in
  let b := a in
  let a := Z.land (temp1 + temp2) mask32 in
  ret (Work.mk a b c d e f g h_val).

(** [h[i] = (h[i] + v) & 0xffffffff] on the list object [h]. *)
Definition add_to_h_at (h i : nat) (v : Z) : prog unit :=
  let* h_i := list_getitem h i in
  list_setitem h i (Z.land (h_i + v) mask32).

(** Source lines 93-100, in order. *)
Definition accumulate_at (h : nat) (v : Work.t) : prog unit :=
  add_to_h_at h 0 (Work.a v) ;;
  add_to_h_at h 1 (Work.b v) ;;
  add_to_h_at h 2 (Work.c v) ;;
  add_to_h_at h 3 (Work.d v) ;;
  add_to_h_at h 4 (Work.e v) ;;
  add_to_h_at h 5 (Work.f v) ;;
  add_to_h_at h 6 (Work.g v) ;;
  add_to_h_at h 7 (Work.h_val v).

(** The body of [for chunk_start in range(0, len(msg), 64)]. *)
Definition chunk_body (K h msg chunk_start : nat) (_ : unit) : prog unit :=
  let* m := bytearray_items msg in
  let* chunk := new (Obytearray (slice m chunk_start (chunk_start + 64))) in
  let* c := bytearray_items chunk in
  let* words := lift (unpack_16I c) in
  let* w := new (Olist words) in
  for_each (seq 16 48) (fun i _ => extend_w_at w i) tt ;;
  let* items := list_items h in
  let* v := lift (unpack_work items) in
  let* v := for_each (seq 0 64) (round_at K w) v in
  accumulate_at h v.

(** A call [_sha256(data)], where [data] is the location of the
    argument. *)
Definition _sha256_call (data : nat) : prog string :=
  let* K := new (Olist K_init) in
  let* h := new (Olist h_init) in
  let* bs := argument_bytes data in
  let msg_len := len bs * 8 in
  let* msg := new (Obytearray bs) in
  bytearray_append msg x80 ;;
  pad_zeros msg ;;
  let* packed := lift (pack_Q msg_len) in
  bytearray_extend msg packed ;;
  let* m := bytearray_items msg in
  for_each (range_64 (length m)) (chunk_body K h msg) tt ;;
  let* items := list_items h in
  ret (hexdigest items).

(** A call [sha256(data)].  The module keeps no object of its own between
    calls: [K] and [h] are built inside [_sha256], and the default
    argument [b''] is an immutable [bytes] value. *)
Definition sha256_call (data : nat) : prog string := _sha256_call data.

(** What a call may rely on and must keep: the caller's heap [σ] is the
    beginning of the current heap, and the call's own objects [K], [h]
    and [msg] lie beyond it and hold the given values. *)
Definition call_frame (σ : list object) (K h msg : nat) (Kv hv : list Z) (mv : list byte)
  (H : list object) : Prop :=
  σ `prefix_of` H /\ (length σ <= K)%nat /\ (length σ <= h)%nat /\ K <> h /\
  H !! K = Some (Olist Kv) /\ H !! h = Some (Olist hv) /\
  H !! msg = Some (Obytearray mv).

(** The variables of [Locals.t] that a call keeps as local integers. *)
Definition work_of (s : Locals.t) : Work.t :=
  Work.mk (Locals.a s) (Locals.b s) (Locals.c s) (Locals.d s)
          (Locals.e s) (Locals.f s) (Locals.g s) (Locals.h_val s).

Definition locals_of (K h w : list Z) (v : Work.t) : Locals.t :=
  Locals.mk K h w (Work.a v) (Work.b v) (Work.c v) (Work.d v)
            (Work.e v) (Work.f v) (Work.g v) (Work.h_val v).

(** * Properties *)

(** ** Words and rotation *)

Section Words.

Lemma mask32_ones : mask32 = Z.ones 32.
Proof. reflexivity. Qed.

Lemma land_mask32 x : Z.land x mask32 = x mod 2 ^ 32.
Proof. rewrite mask32_ones. apply Z.land_ones. lia. Qed.

Lemma land_mask32_word x : is_word (Z.land x mask32).
Proof. rewrite land_mask32. apply Z.mod_pos_bound. lia. Qed.

Lemma word_bits_high x i : is_word x -> 32 <= i -> Z.testbit x i = false.
Proof.
  intros Hx Hi. rewrite <- (Z.mod_small x (2 ^ 32)) by exact Hx.
  apply Z.mod_pow2_bits_high. lia.
Qed.

(** Bit [i] of the rotated word is bit [i + b] of the argument, counted
    around the 32 positions. *)
Lemma _rightrotate_bits x b i :
  is_word x -> 0 <= b <= 32 -> 0 <= i ->
  Z.testbit (_rightrotate x b) i =
    if decide (i < 32) then Z.testbit x ((i + b) mod 32) else false.
Proof.
  intros Hx Hb Hi. unfold _rightrotate.
  rewrite mask32_ones, Z.land_spec, Z.lor_spec, Z.testbit_ones_nonneg by lia.
  rewrite Z.shiftr_spec, Z.shiftl_spec by lia.
  destruct (decide (i < 32)) as [Hlt|Hge].
  - replace (i <? 32) with true by (symmetry; apply Z.ltb_lt; lia).
    rewrite andb_true_r.
    destruct (decide (i + b < 32)) as [Hs|Hs].
    + rewrite Z.mod_small by lia.
      destruct (decide (i - (32 - b) < 0)) as [Hn|Hn].
      * rewrite (Z.testbit_neg_r x (i - (32 - b))) by lia. apply orb_false_r.
      * lia.
    + rewrite (word_bits_high x (i + b)) by (auto; lia).
      replace ((i + b) mod 32) with (i - (32 - b)); [reflexivity|].
      apply (Z.mod_unique_pos _ _ 1); lia.
  - replace (i <? 32) with false by (symmetry; apply Z.ltb_ge; lia).
    apply andb_false_r.
Qed.

Lemma rotr_lor x n :
  is_word x -> 0 <= n <= 32 ->
  rotr x n = Z.lor (Z.shiftr x n) (Z.shiftl (Z.land x (Z.ones n)) (32 - n)).
Proof.
  intros Hx Hn. unfold rotr.
  rewrite Z.shiftr_div_pow2, Z.shiftl_mul_pow2, Z.land_ones by lia.
  apply Z.add_nocarry_lor. apply Z.bits_inj'. intros i Hi.
  rewrite Z.land_spec, Z.bits_0.
  rewrite <- Z.shiftr_div_pow2, <- Z.shiftl_mul_pow2 by lia.
  rewrite Z.shiftr_spec, Z.shiftl_spec by lia.
  destruct (decide (i < 32 - n)).
  - rewrite (Z.testbit_neg_r _ (i - (32 - n))) by lia. apply andb_false_r.
  - rewrite (word_bits_high x (i + n)) by (auto; lia). reflexivity.
Qed.

Lemma rotr_bits x n i :
  is_word x -> 0 <= n <= 32 -> 0 <= i ->
  Z.testbit (rotr x n) i =
    if decide (i < 32) then Z.testbit x ((i + n) mod 32) else false.
Proof.
  intros Hx Hn Hi. rewrite rotr_lor by assumption.
  rewrite Z.lor_spec, Z.shiftr_spec, Z.shiftl_spec by lia.
  destruct (decide (i - (32 - n) < 0)) as [Hneg|Hpos].
  - rewrite (Z.testbit_neg_r _ (i - (32 - n))) by lia. rewrite orb_false_r.
    rewrite decide_True by lia. rewrite Z.mod_small by lia. reflexivity.
  - rewrite (word_bits_high x (i + n)) by (auto; lia). simpl.
    rewrite Z.land_spec, Z.testbit_ones_nonneg by lia.
    destruct (decide (i < 32)) as [Hlt|Hge].
    + replace ((i + n) mod 32) with (i - (32 - n))
        by (apply (Z.mod_unique_pos _ _ 1); lia).
      replace (i - (32 - n) <? n) with true by (symmetry; apply Z.ltb_lt; lia).
      apply andb_true_r.
    + replace (i - (32 - n) <? n) with false by (symmetry; apply Z.ltb_ge; lia).
      apply andb_false_r.
Qed.

(** The source's shift-or-mask formula is the circular rotation. *)
Lemma _rightrotate_rotr x n :
  is_word x -> 0 <= n <= 32 -> _rightrotate x n = rotr x n.
Proof.
  intros Hx Hn. apply Z.bits_inj'. intros i Hi.
  rewrite _rightrotate_bits, rotr_bits by assumption. reflexivity.
Qed.

End Words.

(** ** Bytes and [struct] *)

Section Bytes.

Lemma Z_of_byte_range b : 0 <= Z_of_byte b < 256.
Proof.
  unfold Z_of_byte. pose proof (Byte.to_N_bounded b). lia.
Qed.

Lemma Z_of_byte_of_Z z : Z_of_byte (byte_of_Z z) = z mod 256.
Proof.
  unfold Z_of_byte, byte_of_Z.
  assert (0 <= z mod 256 < 256) as Hr by (apply Z.mod_pos_bound; lia).
  destruct (Byte.of_N (Z.to_N (z mod 256))) as [b|] eqn:Hb; simpl.
  - apply Byte.to_of_N in Hb. rewrite Hb. lia.
  - apply Byte.of_N_None_iff in Hb. lia.
Qed.

Lemma pack_Q_Some n :
  0 <= n < 2 ^ 64 ->
  exists packed, pack_Q n = Some packed /\ length packed = 8%nat /\ be_int packed = n.
Proof.
  intros Hn. unfold pack_Q. rewrite decide_True by exact Hn.
  eexists. split; [reflexivity|]. split; [reflexivity|].
  cbn [map be_int fold_left]. rewrite !Z_of_byte_of_Z, !Z.shiftr_div_pow2 by lia.
  change (8 * 0) with 0. rewrite Z.pow_0_r, Z.div_1_r.
  change (2 ^ (8 * 7)) with (256 * 2 ^ (8 * 6)).
  change (2 ^ (8 * 6)) with (256 * 2 ^ (8 * 5)).
  change (2 ^ (8 * 5)) with (256 * 2 ^ (8 * 4)).
  change (2 ^ (8 * 4)) with (256 * 2 ^ (8 * 3)).
  change (2 ^ (8 * 3)) with (256 * 2 ^ (8 * 2)).
  change (2 ^ (8 * 2)) with (256 * 2 ^ (8 * 1)).
  change (2 ^ (8 * 1)) with 256.
  rewrite <- !Z.div_div by lia.
  assert (n / 256 / 256 / 256 / 256 / 256 / 256 / 256 < 256) as Htop.
  { repeat (apply Z.div_lt_upper_bound; [lia|]). lia. }
  rewrite (Z.mod_small (n / 256 / 256 / 256 / 256 / 256 / 256 / 256)) by
    (split; [repeat apply Z.div_pos; lia | exact Htop]).
  rewrite Z.mul_0_l, Z.add_0_l.
  repeat match goal with
  | |- context [ (?a / 256) * 256 + ?a mod 256 ] =>
      replace ((a / 256) * 256 + a mod 256) with a
        by (rewrite (Z.div_mod a 256) at 1; lia)
  end.
  reflexivity.
Qed.

Lemma pack_Q_None n : 2 ^ 64 <= n -> pack_Q n = None.
Proof. intros Hn. unfold pack_Q. rewrite decide_False by lia. reflexivity. Qed.

End Bytes.

(** ** Padding *)

Section Padding.

Lemma len_app {A} (l1 l2 : list A) : len (l1 ++ l2) = len l1 + len l2.
Proof. unfold len. rewrite length_app. lia. Qed.

Lemma len_nonneg {A} (l : list A) : 0 <= len l.
Proof. unfold len. lia. Qed.

Lemma len_repeat {A} (x : A) n : len (repeat x n) = Z.of_nat n.
Proof. unfold len. rewrite repeat_length. reflexivity. Qed.

(** The loop exits as soon as the byte length is 56 modulo 64. *)
Lemma loop_guard_bytes n : (n * 8) mod 512 = 448 <-> n mod 64 = 56.
Proof. Z.to_euclidean_division_equations. lia. Qed.

(** The zero-padding loop, in closed form. *)
Lemma append_zeros_closed msg :
  append_zeros msg = msg ++ repeat x00 (Z.to_nat ((56 - len msg) mod 64)).
Proof.
  funelim (append_zeros msg).
  - pose proof (proj1 (loop_guard_bytes _) e) as Hexit.
    replace ((56 - len msg) mod 64) with 0
      by (Z.to_euclidean_division_equations; lia).
    simpl. rewrite app_nil_r. reflexivity.
  - rewrite H. rewrite len_app. change (len [x00]) with 1.
    rewrite <- app_assoc. f_equal.
    assert (len msg mod 64 <> 56) as Hne by (rewrite <- loop_guard_bytes; exact n).
    replace (Z.to_nat ((56 - len msg) mod 64))
      with (S (Z.to_nat ((56 - (len msg + 1)) mod 64))).
    + reflexivity.
    + rewrite <- Z2Nat.inj_succ by (apply Z.mod_pos_bound; lia).
      f_equal. Z.to_euclidean_division_equations. lia.
Qed.

Lemma pad_inv data msg :
  pad data = Some msg ->
  exists packed,
    pack_Q (len data * 8) = Some packed /\
    msg = data ++ [x80] ++ repeat x00 (zero_count data) ++ packed.
Proof.
  unfold pad. intros H.
  destruct (pack_Q (len data * 8)) as [packed|] eqn:Hp; [|discriminate].
  simpl in H. injection H as <-. exists packed. split; [reflexivity|].
  rewrite append_zeros_closed, len_app. change (len [x80]) with 1.
  unfold zero_count. replace (56 - (len data + 1)) with (55 - len data) by lia.
  rewrite <- !app_assoc. reflexivity.
Qed.

Lemma pad_Some data :
  fits_length_field data -> exists msg, pad data = Some msg.
Proof.
  intros Hfit. unfold pad.
  destruct (pack_Q_Some (len data * 8)) as (packed & Hp & _).
  { unfold fits_length_field in Hfit. pose proof (len_nonneg data). lia. }
  rewrite Hp. simpl. eexists. reflexivity.
Qed.

Lemma pad_None data : ~ fits_length_field data -> pad data = None.
Proof.
  intros Hfit. unfold pad. rewrite pack_Q_None; [reflexivity|].
  unfold fits_length_field in Hfit. lia.
Qed.

Lemma pad_length data msg :
  pad data = Some msg -> len msg = 64 * ((len data + 8) / 64 + 1).
Proof.
  intros H. pose proof (len_nonneg data) as Hd.
  destruct (pad_inv _ _ H) as (packed & Hp & ->).
  assert (len packed = 8) as Hlen.
  { unfold pack_Q in Hp. destruct (decide _); [|discriminate].
    injection Hp as <-. reflexivity. }
  rewrite !len_app, len_repeat, Hlen. change (len [x80]) with 1.
  unfold zero_count.
  rewrite Z2Nat.id by (apply Z.mod_pos_bound; lia).
  Z.to_euclidean_division_equations. lia.
Qed.

End Padding.

(** ** Loops *)

Section Loops.
Context {S : Type}.
Implicit Types (body : nat -> S -> option S) (range : list nat) (s : S).

(** A loop whose body cannot raise while the invariant holds runs to its
    end and keeps the invariant. *)
Lemma for_in_total (P : S -> Prop) body range s :
  P s ->
  (forall i t, In i range -> P t -> exists t', body i t = Some t' /\ P t') ->
  exists s', for_in body range s = Some s' /\ P s'.
Proof.
  revert s. induction range as [|i range IH]; intros s Hs Hbody; simpl.
  - exists s. split; [reflexivity | exact Hs].
  - destruct (Hbody i s) as (t & Ht & HPt); [left; reflexivity | exact Hs |].
    rewrite Ht. simpl. apply IH; [exact HPt|].
    intros j u Hj. apply Hbody. right. exact Hj.
Qed.

(** Whatever every pass preserves, the loop preserves. *)
Lemma for_in_preserves (P : S -> Prop) body range s s' :
  for_in body range s = Some s' ->
  (forall i t t', In i range -> body i t = Some t' -> P t -> P t') ->
  P s -> P s'.
Proof.
  revert s. induction range as [|i range IH]; intros s Hrun Hbody Hs; simpl in Hrun.
  - injection Hrun as <-. exact Hs.
  - destruct (body i s) as [t|] eqn:Ht; [|discriminate]. simpl in Hrun.
    apply (IH t Hrun).
    + intros j u u' Hj. apply Hbody. right. exact Hj.
    + apply (Hbody i s t); [left; reflexivity | exact Ht | exact Hs].
Qed.

End Loops.

(** ** Message schedule *)

Section Schedule.

Lemma be_int_acc bs acc :
  fold_left (fun a b => a * 256 + Z_of_byte b) bs acc = acc * 256 ^ len bs + be_int bs.
Proof.
  unfold be_int. revert acc. induction bs as [|b bs IH]; intros acc.
  - simpl. change (len []) with 0. lia.
  - cbn [fold_left]. rewrite IH, (IH (0 * 256 + Z_of_byte b)).
    change (b :: bs) with ([b] ++ bs). rewrite len_app. change (len [b]) with 1.
    rewrite Z.pow_add_r by (pose proof (len_nonneg bs); lia). lia.
Qed.

Lemma be_int_bound bs : 0 <= be_int bs < 256 ^ len bs.
Proof.
  induction bs as [|b bs IH].
  - change (be_int []) with 0. change (len []) with 0. lia.
  - unfold be_int. cbn [fold_left]. rewrite be_int_acc.
    change (b :: bs) with ([b] ++ bs). rewrite len_app. change (len [b]) with 1.
    rewrite Z.pow_add_r by (pose proof (len_nonneg bs); lia).
    pose proof (Z_of_byte_range b). nia.
Qed.

Lemma be_int_4 b0 b1 b2 b3 : be_int [b0; b1; b2; b3] = be32 b0 b1 b2 b3.
Proof. unfold be_int, be32. cbn [fold_left]. lia. Qed.

Lemma slice_length {A} (l : list A) i j :
  (i <= j)%nat -> (j <= length l)%nat -> length (slice l i j) = (j - i)%nat.
Proof. intros Hij Hj. unfold slice. rewrite length_take, length_drop. lia. Qed.

Lemma slice_4 (l : list byte) i b0 b1 b2 b3 :
  l !! i = Some b0 -> l !! (i + 1)%nat = Some b1 ->
  l !! (i + 2)%nat = Some b2 -> l !! (i + 3)%nat = Some b3 ->
  slice l i (i + 4) = [b0; b1; b2; b3].
Proof.
  intros H0 H1 H2 H3. unfold slice.
  replace (i + 4 - i)%nat with 4%nat by lia.
  rewrite (drop_S _ _ _ H0).
  replace (i + 1)%nat with (Datatypes.S i) in H1 by lia. rewrite (drop_S _ _ _ H1).
  replace (i + 2)%nat with (Datatypes.S (Datatypes.S i)) in H2 by lia.
  rewrite (drop_S _ _ _ H2).
  replace (i + 3)%nat with (Datatypes.S (Datatypes.S (Datatypes.S i))) in H3 by lia.
  rewrite (drop_S _ _ _ H3). reflexivity.
Qed.

Lemma unpack_16I_spec chunk :
  length chunk = 64%nat ->
  exists w,
    unpack_16I chunk = Some w /\ length w = 16%nat /\ Forall is_word w /\
    forall i b0 b1 b2 b3, (i < 16)%nat ->
      chunk !! (4 * i)%nat = Some b0 -> chunk !! (4 * i + 1)%nat = Some b1 ->
      chunk !! (4 * i + 2)%nat = Some b2 -> chunk !! (4 * i + 3)%nat = Some b3 ->
      w !! i = Some (be32 b0 b1 b2 b3).
Proof.
  intros Hlen. unfold unpack_16I. rewrite decide_True by exact Hlen.
  eexists. split; [reflexivity|]. split; [reflexivity|]. split.
  - apply Forall_forall. intros x Hx. apply list_elem_of_In, in_map_iff in Hx.
    destruct Hx as (i & <- & Hi). apply in_seq in Hi.
    pose proof (be_int_bound (slice chunk (4 * i) (4 * i + 4))) as Hb.
    unfold len in Hb. rewrite slice_length in Hb by lia.
    replace (4 * i + 4 - 4 * i)%nat with 4%nat in Hb by lia.
    change (256 ^ Z.of_nat 4) with (2 ^ 32) in Hb. exact Hb.
  - intros i b0 b1 b2 b3 Hi H0 H1 H2 H3.
    rewrite list_lookup_fmap, lookup_seq_lt by exact Hi.
    change (0 + i)%nat with i. cbn [fmap option_fmap option_map]. f_equal.
    rewrite (slice_4 chunk (4 * i) b0 b1 b2 b3) by assumption.
    apply be_int_4.
Qed.

(** One pass appends the word the recurrence prescribes. *)
Lemma extend_w_spec i w :
  i = length w -> (16 <= i)%nat -> Forall is_word w ->
  exists w16 w15 w7 w2,
    w !! (i - 16)%nat = Some w16 /\ w !! (i - 15)%nat = Some w15 /\
    w !! (i - 7)%nat = Some w7 /\ w !! (i - 2)%nat = Some w2 /\
    extend_w i w = Some (w ++ [(w16 + sigma0 w15 + w7 + sigma1 w2) mod 2 ^ 32]).
Proof.
  intros Hi H16 Hw.
  destruct (lookup_lt_is_Some_2 w (i - 16)) as [w16 E16]; [lia|].
  destruct (lookup_lt_is_Some_2 w (i - 15)) as [w15 E15]; [lia|].
  destruct (lookup_lt_is_Some_2 w (i - 7)) as [w7 E7]; [lia|].
  destruct (lookup_lt_is_Some_2 w (i - 2)) as [w2 E2]; [lia|].
  exists w16, w15, w7, w2. repeat (split; [assumption|]).
  assert (is_word w15) as W15
    by (eapply Forall_forall; [exact Hw | eapply list_elem_of_lookup_2, E15]).
  assert (is_word w2) as W2
    by (eapply Forall_forall; [exact Hw | eapply list_elem_of_lookup_2, E2]).
  unfold extend_w, get_item. rewrite E15, E2, E16, E7. simpl.
  rewrite !_rightrotate_rotr by (auto; lia). rewrite land_mask32. reflexivity.
Qed.

End Schedule.

Section ScheduleLoop.

Lemma recurrence_at_app w ext i :
  (i < length w)%nat -> recurrence_at w i -> recurrence_at (w ++ ext) i.
Proof.
  intros Hi (w16 & w15 & w7 & w2 & E16 & E15 & E7 & E2 & Ei).
  exists w16, w15, w7, w2.
  repeat split; apply lookup_app_l_Some; assumption.
Qed.

Lemma extend_w_loop n : forall s w,
  length w = s -> (16 <= s)%nat -> Forall is_word w ->
  (forall i, (16 <= i < s)%nat -> recurrence_at w i) ->
  exists w',
    for_in extend_w (seq s n) w = Some w' /\ length w' = (s + n)%nat /\
    Forall is_word w' /\ take s w' = w /\
    forall i, (16 <= i < s + n)%nat -> recurrence_at w' i.
Proof.
  induction n as [|n IH]; intros s w Hlen Hs Hw Hrec.
  - exists w. cbn [seq for_in]. repeat split; auto.
    + lia.
    + rewrite <- Hlen. apply firstn_all.
    + intros i Hi. apply Hrec. lia.
  - destruct (extend_w_spec s w) as (w16 & w15 & w7 & w2 & E16 & E15 & E7 & E2 & Hext);
      auto.
    cbn [seq for_in]. rewrite Hext. cbn [mbind option_bind].
    set (v := (w16 + sigma0 w15 + w7 + sigma1 w2) mod 2 ^ 32) in *.
    destruct (IH (Datatypes.S s) (w ++ [v])) as (w' & Hrun & Hlen' & Hw' & Htake & Hrec').
    + rewrite length_app. simpl. lia.
    + lia.
    + apply Forall_app. split; [exact Hw|]. constructor; [|constructor].
      apply Z.mod_pos_bound. lia.
    + intros i Hi. destruct (decide (i = s)) as [->|Hne].
      * exists w16, w15, w7, w2.
        repeat (split; [apply lookup_app_l_Some; assumption|]).
        rewrite lookup_app_r by lia. replace (s - length w)%nat with 0%nat by lia.
        reflexivity.
      * apply recurrence_at_app; [lia|]. apply Hrec. lia.
    + exists w'. split; [exact Hrun|]. split; [lia|]. split; [exact Hw'|]. split.
      * assert (take s (take (Datatypes.S s) w') = take s (w ++ [v])) as Ht
          by (rewrite Htake; reflexivity).
        rewrite take_take in Ht. replace (s `min` Datatypes.S s)%nat with s in Ht by lia.
        rewrite Ht. rewrite take_app_le by lia. rewrite <- Hlen. apply firstn_all.
      * intros i Hi. apply Hrec'. lia.
Qed.

Lemma schedule_spec chunk :
  length chunk = 64%nat ->
  exists w0 w,
    unpack_16I chunk = Some w0 /\ schedule chunk = Some w /\
    length w = 64%nat /\ Forall is_word w /\ take 16 w = w0 /\
    forall i, (16 <= i < 64)%nat -> recurrence_at w i.
Proof.
  intros Hlen. destruct (unpack_16I_spec chunk Hlen) as (w0 & Hw0 & Hl0 & Hword & _).
  destruct (extend_w_loop 48 16 w0) as (w & Hrun & Hl & Hw & Htake & Hrec); auto.
  { intros i Hi. lia. }
  exists w0, w. unfold schedule. rewrite Hw0. cbn [mbind option_bind].
  repeat split; auto.
Qed.

End ScheduleLoop.

(** ** Compression *)

Section Compression.

Lemma round_frame i s s' : round i s = Some s' -> same_lists s s'.
Proof.
  destruct s as [K h w a b c d e f g h_val]. unfold round, get_item.
  destruct (K !! i) as [K_i|]; [|discriminate].
  destruct (w !! i) as [w_i|]; [|discriminate].
  cbn [mbind option_bind]. intros [= <-]. repeat split.
Qed.

Lemma round_Some i s :
  (i < length (Locals.K s))%nat -> (i < length (Locals.w s))%nat ->
  exists s', round i s = Some s'.
Proof.
  destruct s as [K h w a b c d e f g h_val]. cbn [Locals.K Locals.w].
  intros HK Hw. unfold round, get_item.
  destruct (lookup_lt_is_Some_2 K i HK) as [K_i ->].
  destruct (lookup_lt_is_Some_2 w i Hw) as [w_i ->].
  cbn [mbind option_bind]. eexists. reflexivity.
Qed.

Lemma rounds_prefix_frame n s s' :
  for_in round (seq 0 n) s = Some s' -> same_lists s s'.
Proof.
  intros Hrun.
  apply (for_in_preserves (same_lists s) round (seq 0 n) s s' Hrun).
  - intros i t t' _ Hstep (HK & Hh & Hw).
    destruct (round_frame i t t' Hstep) as (HK' & Hh' & Hw').
    repeat split; congruence.
  - repeat split.
Qed.

Lemma rounds_Some s :
  length (Locals.K s) = 64%nat -> length (Locals.w s) = 64%nat ->
  exists s', rounds s = Some s' /\ same_lists s s'.
Proof.
  intros HK Hw. unfold rounds.
  apply (for_in_total (same_lists s)); [repeat split|].
  intros i t Hi (HK' & Hh' & Hw'). apply in_seq in Hi.
  destruct (round_Some i t) as [t' Ht']; [rewrite HK'; lia | rewrite Hw'; lia |].
  exists t'. split; [exact Ht'|].
  destruct (round_frame i t t' Ht') as (HK2 & Hh2 & Hw2).
  repeat split; congruence.
Qed.

Lemma unpack_h_Some K h w :
  length h = 8%nat ->
  exists s, unpack_h K h w = Some s /\
    Locals.K s = K /\ Locals.h s = h /\ Locals.w s = w /\ Locals.working s = h.
Proof.
  intros Hlen.
  destruct h as [|a [|b [|c [|d [|e [|f [|g [|h_val [|]]]]]]]]]; try discriminate.
  eexists. split; [reflexivity|]. repeat split.
Qed.

(** The eight assignments together: every state word receives its own
    working variable, added to the value it had before the first
    assignment. *)
Lemma accumulate_spec s :
  length (Locals.h s) = 8%nat ->
  accumulate s = Some (Locals.set_h (add_words (Locals.h s) (Locals.working s)) s).
Proof.
  destruct s as [K h w a b c d e f g h_val]. cbn [Locals.h]. intros Hlen.
  destruct h as [|h0 [|h1 [|h2 [|h3 [|h4 [|h5 [|h6 [|h7 [|]]]]]]]]]; try discriminate.
  unfold accumulate, add_to_h, get_item, set_item, Locals.set_h, Locals.working,
    add_words.
  cbn [Locals.K Locals.h Locals.w Locals.a Locals.b Locals.c Locals.d Locals.e
       Locals.f Locals.g Locals.h_val lookup list_lookup mbind option_bind
       length zip_with].
  repeat (rewrite decide_True by lia;
          cbn [Locals.K Locals.h Locals.w Locals.a Locals.b Locals.c Locals.d
               Locals.e Locals.f Locals.g Locals.h_val lookup list_lookup mbind
               option_bind length insert list_insert]).
  rewrite !land_mask32. reflexivity.
Qed.

End Compression.

(** ** Rendering *)

Section Rendering.

Lemma chars_append s1 s2 : chars (String.append s1 s2) = chars s1 ++ chars s2.
Proof.
  unfold chars. induction s1 as [|c s1 IH]; [reflexivity|].
  cbn [String.append list_ascii_of_string app]. f_equal. exact IH.
Qed.

Lemma length_chars s : String.length s = length (chars s).
Proof.
  unfold chars. induction s as [|c s IH]; [reflexivity|].
  cbn [String.length list_ascii_of_string length]. f_equal. exact IH.
Qed.

Lemma chars_inj s1 s2 : chars s1 = chars s2 -> s1 = s2.
Proof.
  intros H. rewrite <- (string_of_list_ascii_of_string s1),
    <- (string_of_list_ascii_of_string s2). unfold chars in H. rewrite H. reflexivity.
Qed.

Lemma chars_concat l :
  chars (String.concat EmptyString l) = List.concat (map chars l).
Proof.
  induction l as [|s l IH]; [reflexivity|].
  cbn [map List.concat]. rewrite <- IH.
  destruct l as [|t l].
  - cbn. rewrite app_nil_r. reflexivity.
  - cbn [String.concat]. rewrite chars_append. reflexivity.
Qed.

Lemma hex_digits_eq n :
  hex_digits n =
    if decide (n < 16)%N then String (hex_digit n) EmptyString
    else String.append (hex_digits (n / 16)) (String (hex_digit (n mod 16)) EmptyString).
Proof.
  rewrite hex_digits_equation_1. destruct (decide (n < 16)%N); reflexivity.
Qed.

Lemma chars_zero_fill width s :
  chars (zero_fill width s) = repeat "0"%char (width - length (chars s)) ++ chars s.
Proof.
  unfold zero_fill. rewrite chars_append, length_chars. unfold chars at 1.
  rewrite list_ascii_of_string_of_list_ascii. reflexivity.
Qed.

Lemma hex_fixed_0 k : hex_fixed k 0 = repeat "0"%char k.
Proof.
  induction k as [|k IH]; [reflexivity|].
  cbn [hex_fixed]. change (0 / 16)%N with 0%N. rewrite IH.
  change (hex_digit (0 mod 16)) with "0"%char. symmetry. apply repeat_cons.
Qed.

Lemma hex_fixed_length k n : length (hex_fixed k n) = k.
Proof.
  revert n. induction k as [|k IH]; intros n; [reflexivity|].
  cbn [hex_fixed]. rewrite length_app, IH. simpl. lia.
Qed.

Lemma hex_digits_length_le k n :
  (n < 16 ^ N.of_nat (Datatypes.S k))%N -> (1 <= length (chars (hex_digits n)) <= Datatypes.S k)%nat.
Proof.
  revert n. induction k as [|k IH]; intros n Hn; rewrite hex_digits_eq.
  - change (16 ^ N.of_nat 1)%N with 16%N in Hn.
    rewrite decide_True by exact Hn. simpl. lia.
  - destruct (decide (n < 16)%N); [simpl; lia|].
    rewrite chars_append, length_app. simpl.
    assert (n / 16 < 16 ^ N.of_nat (Datatypes.S k))%N as Hq.
    { apply N.Div0.div_lt_upper_bound.
      rewrite <- N.pow_succ_r', <- Nat2N.inj_succ. exact Hn. }
    specialize (IH _ Hq). lia.
Qed.

(** Zero-filling the digits to a width they fit gives the fixed-width
    rendering. *)
Lemma chars_zero_fill_hex_digits k n :
  (n < 16 ^ N.of_nat (Datatypes.S k))%N ->
  chars (zero_fill (Datatypes.S k) (hex_digits n)) = hex_fixed (Datatypes.S k) n.
Proof.
  revert n. induction k as [|k IH]; intros n Hn.
  - change (16 ^ N.of_nat 1)%N with 16%N in Hn.
    rewrite chars_zero_fill, hex_digits_eq, decide_True by exact Hn.
    cbn. rewrite N.mod_small by exact Hn. reflexivity.
  - rewrite chars_zero_fill, hex_digits_eq.
    destruct (decide (n < 16)%N) as [Hlt|Hge].
    + change (hex_fixed (Datatypes.S (Datatypes.S k)) n)
        with (hex_fixed (Datatypes.S k) (n / 16) ++ [hex_digit (n mod 16)]).
      rewrite N.div_small, N.mod_small by exact Hlt.
      rewrite hex_fixed_0. reflexivity.
    + assert (n / 16 < 16 ^ N.of_nat (Datatypes.S k))%N as Hq.
      { apply N.Div0.div_lt_upper_bound.
        rewrite <- N.pow_succ_r', <- Nat2N.inj_succ. exact Hn. }
      change (hex_fixed (Datatypes.S (Datatypes.S k)) n)
        with (hex_fixed (Datatypes.S k) (n / 16) ++ [hex_digit (n mod 16)]).
      rewrite <- (IH _ Hq), chars_zero_fill, chars_append, length_app.
      pose proof (hex_digits_length_le k _ Hq).
      cbn [chars list_ascii_of_string length].
      replace (Datatypes.S (Datatypes.S k) - (length (chars (hex_digits (n / 16))) + 1))%nat
        with (Datatypes.S k - length (chars (hex_digits (n / 16))))%nat by lia.
      rewrite <- app_assoc. reflexivity.
Qed.

Lemma format_08x_word x :
  is_word x -> chars (format_08x x) = hex_fixed 8 (Z.to_N x).
Proof.
  intros [H0 H1]. unfold format_08x. rewrite decide_False by lia.
  apply chars_zero_fill_hex_digits.
  change (16 ^ N.of_nat 8)%N with (Z.to_N (2 ^ 32)). lia.
Qed.

End Rendering.

Section Digits.



Lemma hex_fixed_app j k n :
  hex_fixed (j + k) n = hex_fixed j (n / 16 ^ N.of_nat k) ++ hex_fixed k n.
Proof.
  revert n. induction k as [|k IH]; intros n.
  - rewrite Nat.add_0_r. change (16 ^ N.of_nat 0)%N with 1%N.
    rewrite N.div_1_r, app_nil_r. reflexivity.
  - rewrite Nat.add_succ_r. cbn [hex_fixed]. rewrite IH, <- app_assoc.
    rewrite N.Div0.div_div, Nat2N.inj_succ, N.pow_succ_r'. reflexivity.
Qed.

Lemma hex_fixed_mod k n : hex_fixed k (n mod 16 ^ N.of_nat k) = hex_fixed k n.
Proof.
  revert n. induction k as [|k IH]; intros n; [reflexivity|].
  cbn [hex_fixed]. rewrite Nat2N.inj_succ, N.pow_succ_r'.
  rewrite N.Div0.mod_mul_r.
  replace ((n mod 16 + 16 * ((n / 16) mod 16 ^ N.of_nat k)) / 16)%N
    with ((n / 16) mod 16 ^ N.of_nat k)%N.
  - rewrite IH. do 3 f_equal.
    rewrite N.mul_comm, N.Div0.mod_add. apply N.Div0.mod_mod.
  - rewrite N.add_comm, N.mul_comm, N.div_add_l by discriminate.
    rewrite (N.div_small (n mod 16)) by (apply N.mod_lt; discriminate). lia.
Qed.

Lemma to_N_byte_of_Z z : Byte.to_N (byte_of_Z z) = Z.to_N (z mod 256).
Proof.
  pose proof (Z_of_byte_of_Z z) as H. unfold Z_of_byte in H.
  rewrite <- H. rewrite N2Z.id. reflexivity.
Qed.

(** A word in hexadecimal is its four big-endian bytes in hexadecimal. *)
Lemma hex_fixed_word_bytes x :
  is_word x ->
  hex_fixed 8 (Z.to_N x) = flat_map (fun b => hex_fixed 2 (Byte.to_N b)) (word_bytes x).
Proof.
  intros [H0 H1]. unfold word_bytes. cbn [map flat_map].
  rewrite !to_N_byte_of_Z, !Z.shiftr_div_pow2 by lia.
  assert (forall k, 0 <= k ->
            hex_fixed 2 (Z.to_N ((x / 2 ^ (8 * k)) mod 256))
            = hex_fixed 2 (Z.to_N x / 16 ^ N.of_nat (Z.to_nat (2 * k)))) as Hbyte.
  { intros k Hk.
    rewrite Z2N.inj_mod by (try apply Z.div_pos; lia).
    change (Z.to_N 256) with (16 ^ N.of_nat 2)%N. rewrite hex_fixed_mod.
    f_equal. rewrite Z2N.inj_div by lia. f_equal.
    rewrite Z2N.inj_pow by lia. rewrite Z_nat_N, Z2N.inj_mul by lia.
    change (Z.to_N 2) with 2%N. change 16%N with (2 ^ 4)%N.
    rewrite <- N.pow_mul_r. f_equal. change (Z.to_N 8) with 8%N. lia. }
  rewrite !Hbyte by lia. rewrite app_nil_r.
  change 8%nat with (6 + 2)%nat at 1. rewrite hex_fixed_app.
  change 6%nat with (4 + 2)%nat at 1. rewrite hex_fixed_app.
  change 4%nat with (2 + 2)%nat at 1. rewrite hex_fixed_app.
  rewrite !N.Div0.div_div, <- !N.pow_add_r, <- !app_assoc.
  change (Z.to_nat (2 * 0)) with 0%nat. change (16 ^ N.of_nat 0)%N with 1%N.
  rewrite N.div_1_r. reflexivity.
Qed.

End Digits.

(** ** The digest string *)

Section Digest.

Lemma hexdigest_chars hs :
  Forall is_word hs ->
  chars (hexdigest hs) = flat_map (fun x => hex_fixed 8 (Z.to_N x)) hs.
Proof.
  intros Hw. unfold hexdigest. rewrite chars_concat, map_map.
  induction Hw as [|x hs Hx _ IH]; [reflexivity|].
  cbn [map List.concat flat_map]. rewrite IH, format_08x_word by exact Hx.
  reflexivity.
Qed.

Lemma hexdigest_length hs :
  Forall is_word hs -> String.length (hexdigest hs) = (8 * length hs)%nat.
Proof.
  intros Hw. rewrite length_chars, hexdigest_chars by exact Hw.
  clear Hw. induction hs as [|x hs IH]; [reflexivity|].
  cbn [flat_map]. rewrite length_app, hex_fixed_length, IH. simpl. lia.
Qed.


Lemma hexdigest_hexlify hs :
  Forall is_word hs -> hexdigest hs = hexlify (digest_bytes hs).
Proof.
  intros Hw. apply chars_inj. rewrite hexdigest_chars by exact Hw.
  unfold hexlify, chars, digest_bytes. rewrite list_ascii_of_string_of_list_ascii.
  induction Hw as [|x hs Hx _ IH]; [reflexivity|].
  cbn [flat_map]. rewrite flat_map_app, <- IH, hex_fixed_word_bytes by exact Hx.
  reflexivity.
Qed.

Lemma digest_bytes_length hs : length (digest_bytes hs) = (4 * length hs)%nat.
Proof.
  unfold digest_bytes. induction hs as [|x hs IH]; [reflexivity|].
  cbn [flat_map]. rewrite length_app, IH. simpl. lia.
Qed.

End Digest.

(** ** The chunk loop *)

Section ChunkLoop.

Lemma unpack_h_inv K h w s :
  unpack_h K h w = Some s ->
  length h = 8%nat /\ Locals.K s = K /\ Locals.h s = h /\ Locals.w s = w /\
  Locals.working s = h.
Proof.
  unfold unpack_h.
  destruct h as [|a [|b [|c [|d [|e [|f [|g [|h_val [|]]]]]]]]]; try discriminate.
  intros [= <-]. repeat split.
Qed.

(** Compressing one full chunk: the schedule is built, the rounds run on
    copies of the state words, and the state is then updated once. *)
Lemma process_chunk_spec msg chunk_start K h :
  (chunk_start + 64 <= length msg)%nat -> length K = 64%nat -> length h = 8%nat ->
  exists w s0 s64,
    schedule (slice msg chunk_start (chunk_start + 64)) = Some w /\
    unpack_h K h w = Some s0 /\ rounds s0 = Some s64 /\ same_lists s0 s64 /\
    process_chunk msg chunk_start (K, h) = Some (K, add_words h (Locals.working s64)).
Proof.
  intros Hcs HK Hh.
  destruct (schedule_spec (slice msg chunk_start (chunk_start + 64)))
    as (w0 & w & _ & Hw & Hlw & _).
  { rewrite slice_length by lia. lia. }
  destruct (unpack_h_Some K h w Hh) as (s0 & Hs0 & EK & Eh & Ew & _).
  destruct (rounds_Some s0) as (s64 & Hs64 & Hframe); [congruence | congruence |].
  exists w, s0, s64. repeat (split; [assumption|]).
  destruct Hframe as (FK & Fh & Fw).
  unfold process_chunk. cbn [fst snd]. rewrite Hw. cbn [mbind option_bind].
  rewrite Hs0. cbn [mbind option_bind]. rewrite Hs64. cbn [mbind option_bind].
  rewrite accumulate_spec by congruence. cbn [mbind option_bind].
  unfold Locals.set_h. cbn [Locals.K Locals.h]. rewrite FK, EK, Fh, Eh. reflexivity.
Qed.

Lemma add_words_ok h vars :
  length h = 8%nat -> length vars = 8%nat ->
  length (add_words h vars) = 8%nat /\ Forall is_word (add_words h vars).
Proof.
  intros Hh Hv. unfold add_words. split.
  - rewrite length_zip_with. lia.
  - apply Forall_forall. intros z Hz.
    apply elem_of_lookup_zip_with in Hz. destruct Hz as (i & x & y & -> & _).
    apply Z.mod_pos_bound. lia.
Qed.

Lemma range_64_bound n cs :
  (n mod 64 = 0)%nat -> In cs (range_64 n) -> (cs + 64 <= n)%nat.
Proof.
  intros Hn Hcs. unfold range_64 in Hcs. apply in_map_iff in Hcs.
  destruct Hcs as (k & <- & Hk). apply in_seq in Hk.
  pose proof (Nat.div_mod_eq n 64) as Hdm.
  assert ((n + 63) / 64 = n / 64)%nat as Hq.
  { rewrite Hn, Nat.add_0_r in Hdm. rewrite Hdm at 1.
    rewrite Nat.mul_comm, Nat.div_add_l by lia. simpl. lia. }
  lia.
Qed.

Lemma K_init_length : length K_init = 64%nat.
Proof. reflexivity. Qed.

Lemma state_ok_init : state_ok (K_init, h_init).
Proof.
  split; [reflexivity|]. split; [reflexivity|].
  unfold h_init. repeat constructor; unfold is_word; lia.
Qed.

Lemma process_chunk_ok msg cs Kh :
  (cs + 64 <= length msg)%nat -> state_ok Kh ->
  exists Kh', process_chunk msg cs Kh = Some Kh' /\ state_ok Kh'.
Proof.
  destruct Kh as [K h]. intros Hcs (HK & Hh & _). cbn [fst snd] in *.
  destruct (process_chunk_spec msg cs K h) as (w & s0 & s64 & _ & Hs0 & _ & _ & Hrun);
    [exact Hcs | rewrite HK; apply K_init_length | exact Hh |].
  eexists. split; [exact Hrun|].
  destruct (add_words_ok h (Locals.working s64) Hh eq_refl) as [Hl Hw].
  split; [exact HK|]. split; [exact Hl | exact Hw].
Qed.

Lemma chunk_loop_ok msg Kh :
  (length msg mod 64 = 0)%nat -> state_ok Kh ->
  exists Kh', chunk_loop msg Kh = Some Kh' /\ state_ok Kh'.
Proof.
  intros Hlen Hok. unfold chunk_loop.
  apply (for_in_total state_ok); [exact Hok|].
  intros cs t Hcs Ht. apply process_chunk_ok; [|exact Ht].
  apply range_64_bound; assumption.
Qed.

Lemma pad_length_mod data msg :
  pad data = Some msg -> (length msg mod 64 = 0)%nat.
Proof.
  intros H. apply pad_length in H. unfold len in H.
  apply Nat2Z.inj. rewrite Nat2Z.inj_mod, H. simpl Z.of_nat.
  rewrite Z.mul_comm. apply Z.mod_mul. lia.
Qed.

(** The whole computation, when the length fits its field. *)
Lemma sha256_run data :
  fits_length_field data ->
  exists msg Kh,
    pad data = Some msg /\ chunk_loop msg (K_init, h_init) = Some Kh /\
    state_ok Kh /\ sha256 data = Some (hexdigest Kh.2).
Proof.
  intros Hfit. destruct (pad_Some data Hfit) as [msg Hmsg].
  destruct (chunk_loop_ok msg (K_init, h_init)) as (Kh & Hloop & Hok).
  { eapply pad_length_mod, Hmsg. }
  { apply state_ok_init. }
  exists msg, Kh. repeat (split; [assumption|]).
  unfold sha256, _sha256. rewrite Hmsg. cbn [mbind option_bind].
  rewrite Hloop. reflexivity.
Qed.

Lemma fits_length_field_dec data :
  fits_length_field data \/ ~ fits_length_field data.
Proof. unfold fits_length_field. lia. Qed.

Lemma sha256_fits data d : sha256 data = Some d -> fits_length_field data.
Proof.
  intros H. destruct (fits_length_field_dec data) as [Hf|Hf]; [exact Hf|].
  unfold sha256, _sha256 in H. rewrite (pad_None data Hf) in H. discriminate.
Qed.

End ChunkLoop.

(** * The claims of the specification *)

(** ** Padding *)

(** C4.  For an input whose bit-length [L] is below [2^64], the padded
    message is exactly the input, then the byte [0x80], then
    [zero_count data] bytes [0x00] -- the least number that brings the
    length in bits to 448 modulo 512 -- then [L] as eight big-endian
    bytes. *)
Theorem pad_layout (data : list byte) :
  fits_length_field data ->
  exists packed,
    pad data = Some (data ++ [x80] ++ repeat x00 (zero_count data) ++ packed) /\
    length packed = 8%nat /\ be_int packed = len data * 8 /\
    ((len data + 1 + Z.of_nat (zero_count data)) * 8) mod 512 = 448 /\
    forall j, (j < zero_count data)%nat ->
      ((len data + 1 + Z.of_nat j) * 8) mod 512 <> 448.
Proof.
  intros Hfit. pose proof (len_nonneg data) as Hd.
  destruct (pack_Q_Some (len data * 8)) as (packed & Hp & Hlen & Hval).
  { unfold fits_length_field in Hfit. lia. }
  destruct (pad_Some data Hfit) as [msg Hmsg].
  destruct (pad_inv data msg Hmsg) as (packed' & Hp' & ->).
  assert (packed' = packed) as -> by congruence.
  exists packed. split; [exact Hmsg|]. split; [exact Hlen|]. split; [exact Hval|].
  unfold zero_count. rewrite Z2Nat.id by (apply Z.mod_pos_bound; lia). split.
  - Z.to_euclidean_division_equations. lia.
  - intros j Hj.
    assert (Z.of_nat j < (55 - len data) mod 64) as Hj'.
    { apply Z2Nat.inj_lt; [lia | apply Z.mod_pos_bound; lia |].
      rewrite Nat2Z.id. exact Hj. }
    pose proof (Nat2Z.is_nonneg j).
    Z.to_euclidean_division_equations. lia.
Qed.

Lemma pad_layout_witness :
  fits_length_field [x61; x62; x63] /\
  exists packed,
    pad [x61; x62; x63] = Some ([x61; x62; x63] ++ [x80] ++ repeat x00 52 ++ packed) /\
    be_int packed = 24.
Proof.
  split; [vm_compute; reflexivity|].
  destruct (pad_layout [x61; x62; x63]) as (packed & Hpad & _ & Hval & _).
  - vm_compute. reflexivity.
  - exists packed. split; [exact Hpad | exact Hval].
Defined.

(** The boundary lengths: 55 bytes fill one block, 56 and 64 bytes need a
    second one, 119 bytes fill two. *)
Lemma pad_boundary_lengths data msg :
  pad data = Some msg ->
  (len data = 55 -> len msg = 64) /\ (len data = 56 -> len msg = 128) /\
  (len data = 64 -> len msg = 128) /\ (len data = 119 -> len msg = 128).
Proof.
  intros H. apply pad_length in H. rewrite H.
  repeat split; intros ->; reflexivity.
Qed.

(** C6.  The padded message has a bit-length that is a positive multiple of
    512 and at least [L + 65]; and it exists whenever [L] fits the length
    field. *)
Theorem padded_length_invariant (data : list byte) :
  (forall msg, pad data = Some msg ->
     (len msg * 8) mod 512 = 0 /\ 0 < len msg * 8 /\ len data * 8 + 65 <= len msg * 8) /\
  (fits_length_field data -> exists msg, pad data = Some msg).
Proof.
  split; [|apply pad_Some].
  intros msg H. apply pad_length in H. pose proof (len_nonneg data).
  rewrite H. Z.to_euclidean_division_equations. lia.
Qed.

Lemma padded_length_invariant_witness :
  exists msg, pad [x61; x62; x63] = Some msg /\ len msg * 8 = 512.
Proof.
  destruct (padded_length_invariant [x61; x62; x63]) as [Hinv Hex].
  destruct Hex as [msg Hmsg]; [vm_compute; reflexivity|].
  exists msg. split; [exact Hmsg|].
  destruct (Hinv msg Hmsg) as (_ & _ & _).
  revert Hmsg. vm_compute. intros [= <-]. reflexivity.
Defined.

(** ** Message schedule *)

(** C5.  For a 64-byte block the schedule is a list of 64 32-bit words:
    the first sixteen are the big-endian words of the block, and every
    later one is [w[i-16] + sigma0(w[i-15]) + w[i-7] + sigma1(w[i-2])]
    modulo [2^32], with [sigma0], [sigma1] built from the circular rotation
    [rotr]. *)
Theorem schedule_words (chunk : list byte) :
  length chunk = 64%nat ->
  exists w,
    schedule chunk = Some w /\ length w = 64%nat /\ Forall is_word w /\
    (forall i b0 b1 b2 b3, (i < 16)%nat ->
       chunk !! (4 * i)%nat = Some b0 -> chunk !! (4 * i + 1)%nat = Some b1 ->
       chunk !! (4 * i + 2)%nat = Some b2 -> chunk !! (4 * i + 3)%nat = Some b3 ->
       w !! i = Some (be32 b0 b1 b2 b3)) /\
    (forall i, (16 <= i < 64)%nat -> recurrence_at w i).
Proof.
  intros Hlen.
  destruct (schedule_spec chunk Hlen) as (w0 & w & Hw0 & Hw & Hl & Hword & Htake & Hrec).
  destruct (unpack_16I_spec chunk Hlen) as (w0' & Hw0' & _ & _ & Hfirst).
  assert (w0' = w0) as -> by congruence.
  exists w. repeat (split; [assumption|]). split; [|exact Hrec].
  intros i b0 b1 b2 b3 Hi H0 H1 H2 H3.
  rewrite <- (Hfirst i b0 b1 b2 b3 Hi H0 H1 H2 H3), <- Htake.
  symmetry. apply lookup_take_lt. exact Hi.
Qed.

Lemma schedule_words_witness :
  exists w,
    schedule (repeat x01 64) = Some w /\ w !! 0%nat = Some 0x01010101 /\
    recurrence_at w 16.
Proof.
  destruct (schedule_words (repeat x01 64)) as (w & Hw & _ & _ & Hfirst & Hrec).
  - reflexivity.
  - exists w. split; [exact Hw|]. split.
    + apply (Hfirst 0%nat x01 x01 x01 x01); [lia | reflexivity ..].
    + apply Hrec. lia.
Defined.

(** The rotation used by the schedule is circular: bit [i] of [rotr x n]
    is bit [(i + n) mod 32] of [x]. *)
Lemma rotr_circular x n i :
  is_word x -> 0 <= n <= 32 -> 0 <= i < 32 ->
  Z.testbit (rotr x n) i = Z.testbit x ((i + n) mod 32).
Proof.
  intros Hx Hn Hi. rewrite rotr_bits by (auto; lia).
  rewrite decide_True by lia. reflexivity.
Qed.

(** ** Compression *)

(** C7.  While a chunk is compressed, the state words [h] and the table
    [K] keep the value they had before the rounds began, after any number
    of rounds: the rounds work on the copies [a .. h_val].  After the 64
    rounds each state word becomes its earlier value plus its working
    variable, modulo [2^32], and [K] is still the same list. *)
Theorem compression_frame (msg : list byte) (chunk_start : nat) (K h : list Z) :
  (chunk_start + 64 <= length msg)%nat -> length K = 64%nat -> length h = 8%nat ->
  exists w s0 s64,
    schedule (slice msg chunk_start (chunk_start + 64)) = Some w /\
    unpack_h K h w = Some s0 /\ Locals.working s0 = h /\
    rounds s0 = Some s64 /\
    (forall n s, for_in round (seq 0 n) s0 = Some s ->
       Locals.K s = K /\ Locals.h s = h) /\
    process_chunk msg chunk_start (K, h) =
      Some (K, add_words h (Locals.working s64)).
Proof.
  intros Hcs HK Hh.
  destruct (process_chunk_spec msg chunk_start K h Hcs HK Hh)
    as (w & s0 & s64 & Hw & Hs0 & Hs64 & _ & Hrun).
  destruct (unpack_h_inv K h w s0 Hs0) as (_ & EK & Eh & _ & Ework).
  exists w, s0, s64. repeat (split; [assumption|]). split; [|exact Hrun].
  intros n s Hn. destruct (rounds_prefix_frame n s0 s Hn) as (FK & Fh & _).
  split; congruence.
Qed.

Lemma compression_frame_witness :
  exists s64,
    process_chunk (repeat x00 64) 0 (K_init, h_init) =
      Some (K_init, add_words h_init (Locals.working s64)).
Proof.
  destruct (compression_frame (repeat x00 64) 0 K_init h_init)
    as (w & s0 & s64 & _ & _ & _ & _ & _ & Hrun).
  - simpl. lia.
  - reflexivity.
  - reflexivity.
  - exists s64. exact Hrun.
Defined.

(** Over the whole chunk loop the table [K] is the one the call started
    with. *)
Lemma K_unchanged data msg Kh :
  pad data = Some msg -> chunk_loop msg (K_init, h_init) = Some Kh -> Kh.1 = K_init.
Proof.
  intros Hpad Hloop.
  destruct (chunk_loop_ok msg (K_init, h_init)) as (Kh' & Hloop' & HK & _).
  - eapply pad_length_mod, Hpad.
  - apply state_ok_init.
  - congruence.
Qed.

(** ** The result of [sha256] *)

(** C8.  Every input whose bit-length is below [2^64], the empty input
    included, is hashed without an exception: the zero-padding loop ends,
    every chunk has 64 bytes, no index is out of range, and a digest is
    returned. *)
Theorem sha256_total (data : list byte) :
  fits_length_field data -> exists digest, sha256 data = Some digest.
Proof.
  intros Hfit. destruct (sha256_run data Hfit) as (msg & Kh & _ & _ & _ & H).
  eexists. exact H.
Qed.

Lemma sha256_total_witness :
  fits_length_field [] /\ exists digest, sha256 [] = Some digest.
Proof.
  split; [vm_compute; reflexivity|].
  apply (sha256_total []). vm_compute. reflexivity.
Defined.





(** C1, as the code has it.  The result is not 32 raw bytes but their
    rendering: for an input that fits the length field, [sha256] returns
    the 64 hexadecimal characters of the 32-byte digest, which is the
    eight state words concatenated big-endian. *)
Theorem sha256_digest_size (data : list byte) :
  fits_length_field data ->
  exists digest raw msg Kh,
    sha256 data = Some digest /\ String.length digest = 64%nat /\
    pad data = Some msg /\ chunk_loop msg (K_init, h_init) = Some Kh /\
    raw = digest_bytes Kh.2 /\ length raw = 32%nat /\ digest = hexlify raw.
Proof.
  intros Hfit.
  destruct (sha256_run data Hfit) as (msg & Kh & Hpad & Hloop & (_ & Hl & Hw) & H).
  exists (hexdigest Kh.2), (digest_bytes Kh.2), msg, Kh.
  split; [exact H|].
  split; [rewrite hexdigest_length, Hl by exact Hw; reflexivity|].
  repeat (split; [assumption || reflexivity|]).
  split; [rewrite digest_bytes_length, Hl; reflexivity|].
  apply hexdigest_hexlify. exact Hw.
Qed.

Lemma sha256_digest_size_witness :
  exists digest raw,
    sha256 [] = Some digest /\ length raw = 32%nat /\ digest = hexlify raw.
Proof.
  destruct (sha256_digest_size []) as (digest & raw & _ & _ & Hd & _ & _ & _ & _ & Hl & Hx).
  - vm_compute. reflexivity.
  - exists digest, raw. repeat split; assumption.
Defined.

(** C1, as the specification words it, fails: the value returned for the
    empty input does not have length 32. *)
Lemma sha256_length_not_32 :
  ~ exists digest, sha256 [] = Some digest /\ String.length digest = 32%nat.
Proof.
  intros (digest & Hd & Hlen). revert Hd. vm_compute. intros [= <-].
  revert Hlen. vm_compute. discriminate.
Qed.

(** ** Known answers *)

(** C2, as the code has it.  The empty input hashes to the 64-character
    value of the module's own test table, which ends in [b855]. *)
Theorem sha256_empty :
  exists digest,
    sha256 [] = Some digest /\
    digest = "e3b0c44298fc1c149afbf4c8996fb92427ae41e4649b934ca495991b7852b855"%string /\
    eq_ignoring_case digest
      "E3B0C44298FC1C149AFBF4C8996FB92427AE41E4649B934CA495991B7852B855".
Proof.
  eexists. split; [vm_compute; reflexivity|]. split; vm_compute; reflexivity.
Qed.

(** C2, as the specification words it, fails: its value has 63
    characters, so the digest differs from it whatever the letter case. *)
Lemma sha256_empty_not_spec_value :
  ~ exists digest,
      sha256 [] = Some digest /\
      eq_ignoring_case digest
        "e3b0c44298fc1c149afbf4c8996fb92427ae41e4649b934ca495991b7852b85".
Proof.
  intros (digest & Hd & Heq). revert Hd. vm_compute. intros [= <-].
  apply (f_equal String.length) in Heq. revert Heq. vm_compute. discriminate.
Qed.

(** C3.  The three bytes of ["abc"] hash to the value of the table, in any
    letter case. *)
Theorem sha256_abc :
  exists digest,
    sha256 (list_byte_of_string "abc") = Some digest /\
    digest = "ba7816bf8f01cfea414140de5dae2223b00361a396177a9cb410ff61f20015ad"%string /\
    eq_ignoring_case digest
      "BA7816BF8F01CFEA414140DE5DAE2223B00361A396177A9CB410FF61F20015AD".
Proof.
  eexists. split; [vm_compute; reflexivity|]. split; vm_compute; reflexivity.
Qed.

(** The third entry of the module's test table, a 56-byte input that takes
    two blocks. *)
Lemma sha256_two_blocks :
  sha256 (list_byte_of_string "abcdbcdecdefdefgefghfghighijhijkijkljklmklmnlmnomnopnopq")
  = Some "248d6a61d20638b8e5c026930c3e6039a33ce45964ff2167f6ecedd419db06c1"%string.
Proof. vm_compute. reflexivity. Qed.

(** ** Determinism *)

Section Calls.

Lemma bind_Some {A B} (m : prog A) (k : A -> prog B) σ a σ' :
  m σ = (Some a, σ') -> bind m k σ = k a σ'.
Proof. intros H. unfold bind. rewrite H. reflexivity. Qed.

Lemma bind_None {A B} (m : prog A) (k : A -> prog B) σ σ' :
  m σ = (None, σ') -> bind m k σ = (None, σ').
Proof. intros H. unfold bind. rewrite H. reflexivity. Qed.

Lemma list_getitem_ok H l items i x :
  H !! l = Some (Olist items) -> items !! i = Some x ->
  list_getitem l i H = (Some x, H).
Proof.
  intros Hl Hi. unfold list_getitem, list_items, bind, lift, get_item.
  rewrite Hl, Hi. reflexivity.
Qed.

Lemma list_append_ok H l items v :
  H !! l = Some (Olist items) ->
  list_append l v H = (Some tt, <[l := Olist (items ++ [v])]> H).
Proof. intros Hl. unfold list_append. rewrite Hl. reflexivity. Qed.

Lemma list_setitem_ok H l items i v :
  H !! l = Some (Olist items) -> (i < length items)%nat ->
  list_setitem l i v H = (Some tt, <[l := Olist (<[i := v]> items)]> H).
Proof.
  intros Hl Hi. unfold list_setitem, set_item. rewrite Hl, decide_True by exact Hi.
  reflexivity.
Qed.

(** The frame of a call under the operations it performs. *)
Lemma call_frame_insert σ K h msg Kv hv mv H l o :
  call_frame σ K h msg Kv hv mv H -> (length σ <= l)%nat ->
  l <> K -> l <> h -> l <> msg ->
  call_frame σ K h msg Kv hv mv (<[l := o]> H).
Proof.
  intros (Hpre & HK & Hh & Hne & LK & Lh & Lm) Hl nK nh nm.
  split; [|repeat split; auto; rewrite list_lookup_insert_ne by auto; assumption].
  destruct Hpre as [G ->]. exists (<[(l - length σ)%nat := o]> G).
  rewrite insert_app_r_alt by lia. reflexivity.
Qed.

Lemma call_frame_new σ K h msg Kv hv mv H o :
  call_frame σ K h msg Kv hv mv H -> call_frame σ K h msg Kv hv mv (H ++ [o]).
Proof.
  intros (Hpre & HK & Hh & Hne & LK & Lh & Lm).
  split; [destruct Hpre as [G ->]; exists (G ++ [o]); rewrite app_assoc; reflexivity|].
  repeat split; auto; apply lookup_app_l_Some; assumption.
Qed.

Lemma call_frame_set_h σ K h msg Kv hv hv' mv H :
  call_frame σ K h msg Kv hv mv H -> h <> msg ->
  call_frame σ K h msg Kv hv' mv (<[h := Olist hv']> H).
Proof.
  intros (Hpre & HK & Hh & Hne & LK & Lh & Lm) Hhm.
  split; [|repeat split; auto].
  - destruct Hpre as [G ->]. exists (<[(h - length σ)%nat := Olist hv']> G).
    rewrite insert_app_r_alt by lia. reflexivity.
  - rewrite list_lookup_insert_ne by auto. exact LK.
  - apply list_lookup_insert_eq. eapply lookup_lt_Some, Lh.
  - rewrite list_lookup_insert_ne by auto. exact Lm.
Qed.

(** The extension loop, on the list object [w]. *)
Lemma extend_w_at_ok H w wv i wv' :
  H !! w = Some (Olist wv) -> extend_w i wv = Some wv' ->
  extend_w_at w i H = (Some tt, <[w := Olist wv']> H).
Proof.
  intros Hw Hext. unfold extend_w, get_item in Hext.
  destruct (wv !! (i - 15)%nat) as [w15|] eqn:E15; [|discriminate].
  cbn [mbind option_bind] in Hext.
  destruct (wv !! (i - 2)%nat) as [w2|] eqn:E2; [|discriminate].
  cbn [mbind option_bind] in Hext.
  destruct (wv !! (i - 16)%nat) as [w16|] eqn:E16; [|discriminate].
  cbn [mbind option_bind] in Hext.
  destruct (wv !! (i - 7)%nat) as [w7|] eqn:E7; [|discriminate].
  cbn [mbind option_bind] in Hext. injection Hext as <-.
  unfold extend_w_at.
  rewrite (bind_Some _ _ _ _ _ (list_getitem_ok H w wv _ _ Hw E15)).
  rewrite (bind_Some _ _ _ _ _ (list_getitem_ok H w wv _ _ Hw E2)).
  rewrite (bind_Some _ _ _ _ _ (list_getitem_ok H w wv _ _ Hw E16)).
  rewrite (bind_Some _ _ _ _ _ (list_getitem_ok H w wv _ _ Hw E7)).
  apply list_append_ok. exact Hw.
Qed.

Lemma extend_loop_at range : forall H w wv wv',
  H !! w = Some (Olist wv) -> for_in extend_w range wv = Some wv' ->
  for_each range (fun i _ => extend_w_at w i) tt H = (Some tt, <[w := Olist wv']> H).
Proof.
  induction range as [|i range IH]; intros H w wv wv' Hw Hrun.
  - injection Hrun as <-. cbn [for_each]. unfold ret.
    rewrite list_insert_id by exact Hw. reflexivity.
  - cbn [for_in] in Hrun. destruct (extend_w i wv) as [wv1|] eqn:Hext; [|discriminate].
    cbn [mbind option_bind] in Hrun. cbn [for_each].
    rewrite (bind_Some _ _ _ _ _ (extend_w_at_ok H w wv i wv1 Hw Hext)).
    rewrite (IH _ w wv1 wv'); [|apply list_lookup_insert_eq; eapply lookup_lt_Some, Hw|exact Hrun].
    rewrite list_insert_insert_eq. reflexivity.
Qed.

(** The compression loop reads the heap and leaves it alone. *)
Lemma round_at_ok H K w Kv hv wv i v s' :
  H !! K = Some (Olist Kv) -> H !! w = Some (Olist wv) ->
  round i (locals_of Kv hv wv v) = Some s' ->
  round_at K w i v H = (Some (work_of s'), H) /\ s' = locals_of Kv hv wv (work_of s').
Proof.
  intros HK Hw Hr. destruct v as [a b c d e f g h_val].
  unfold locals_of in Hr. cbn [Work.a Work.b Work.c Work.d Work.e Work.f Work.g Work.h_val] in Hr.
  unfold round, get_item in Hr.
  destruct (Kv !! i) as [K_i|] eqn:EK; [|discriminate].
  cbn [mbind option_bind] in Hr.
  destruct (wv !! i) as [w_i|] eqn:Ew; [|discriminate].
  cbn [mbind option_bind] in Hr. injection Hr as <-.
  unfold round_at.
  rewrite (bind_Some _ _ _ _ _ (list_getitem_ok H K Kv _ _ HK EK)).
  rewrite (bind_Some _ _ _ _ _ (list_getitem_ok H w wv _ _ Hw Ew)).
  split; reflexivity.
Qed.

Lemma rounds_at range : forall H K w Kv hv wv v s',
  H !! K = Some (Olist Kv) -> H !! w = Some (Olist wv) ->
  for_in round range (locals_of Kv hv wv v) = Some s' ->
  for_each range (round_at K w) v H = (Some (work_of s'), H).
Proof.
  induction range as [|i range IH]; intros H K w Kv hv wv v s' HK Hw Hrun.
  - injection Hrun as <-. destruct v. reflexivity.
  - cbn [for_in] in Hrun.
    destruct (round i (locals_of Kv hv wv v)) as [s1|] eqn:Hr; [|discriminate].
    cbn [mbind option_bind] in Hrun.
    destruct (round_at_ok H K w Kv hv wv i v s1 HK Hw Hr) as [Hstep Hs1].
    cbn [for_each]. rewrite (bind_Some _ _ _ _ _ Hstep).
    rewrite Hs1 in Hrun. exact (IH H K w Kv hv wv _ s' HK Hw Hrun).
Qed.

Lemma add_to_h_at_ok H h items i x v :
  H !! h = Some (Olist items) -> items !! i = Some x ->
  add_to_h_at h i v H
  = (Some tt, <[h := Olist (<[i := Z.land (x + v) mask32]> items)]> H).
Proof.
  intros Hh Hi. unfold add_to_h_at.
  rewrite (bind_Some _ _ _ _ _ (list_getitem_ok H h items i x Hh Hi)).
  apply list_setitem_ok; [exact Hh | eapply lookup_lt_Some, Hi].
Qed.

Lemma accumulate_at_ok H h hv v :
  H !! h = Some (Olist hv) -> length hv = 8%nat ->
  accumulate_at h v H
  = (Some tt, <[h := Olist (add_words hv (Work.items v))]> H).
Proof.
  intros Hh Hlen.
  destruct hv as [|h0 [|h1 [|h2 [|h3 [|h4 [|h5 [|h6 [|h7 [|]]]]]]]]]; try discriminate.
  assert (h < length H)%nat as Hlt by (eapply lookup_lt_Some, Hh).
  destruct v as [a b c d e f g h_val]. unfold accumulate_at.
  cbn [Work.a Work.b Work.c Work.d Work.e Work.f Work.g Work.h_val].
  rewrite (bind_Some _ _ _ _ _ (add_to_h_at_ok H h _ 0 h0 a Hh eq_refl)).
  cbn [insert list_insert].
  repeat (erewrite bind_Some;
          [|apply add_to_h_at_ok;
            [apply list_lookup_insert_eq; rewrite ?length_insert; exact Hlt | reflexivity]];
          rewrite list_insert_insert_eq; cbn [insert list_insert]).
  erewrite add_to_h_at_ok;
    [|apply list_lookup_insert_eq; rewrite ?length_insert; exact Hlt | reflexivity].
  rewrite list_insert_insert_eq. cbn [insert list_insert].
  unfold add_words, Work.items.
  cbn [zip_with Work.a Work.b Work.c Work.d Work.e Work.f Work.g Work.h_val].
  rewrite !land_mask32. reflexivity.
Qed.

Lemma unpack_h_work Kv hv wv s0 :
  unpack_h Kv hv wv = Some s0 ->
  exists v0, unpack_work hv = Some v0 /\ s0 = locals_of Kv hv wv v0.
Proof.
  unfold unpack_h, unpack_work.
  destruct hv as [|a [|b [|c [|d [|e [|f [|g [|h_val [|]]]]]]]]]; try discriminate.
  intros [= <-]. eexists. split; reflexivity.
Qed.

Lemma work_items_working s : Work.items (work_of s) = Locals.working s.
Proof. reflexivity. Qed.

(** One chunk: the call makes two objects of its own, [chunk] and [w],
    and writes to [h]; everything else on the heap stays. *)
Lemma chunk_body_ok σ K h msg Kv hv mv H cs Kv' hv' :
  call_frame σ K h msg Kv hv mv H ->
  process_chunk mv cs (Kv, hv) = Some (Kv', hv') ->
  exists H', chunk_body K h msg cs tt H = (Some tt, H') /\
             call_frame σ K h msg Kv hv' mv H' /\ Kv' = Kv.
Proof.
  intros Hframe Hpc. pose proof Hframe as (Hpre & HK & Hh & Hne & LK & Lh & Lm).
  unfold process_chunk in Hpc. cbn [fst snd] in Hpc.
  destruct (schedule (slice mv cs (cs + 64))) as [w64|] eqn:Hsched; [|discriminate].
  cbn [mbind option_bind] in Hpc.
  destruct (unpack_h Kv hv w64) as [s0|] eqn:Hs0; [|discriminate].
  cbn [mbind option_bind] in Hpc.
  destruct (rounds s0) as [s64|] eqn:Hs64; [|discriminate].
  cbn [mbind option_bind] in Hpc.
  destruct (accumulate s64) as [s'|] eqn:Hacc; [|discriminate].
  cbn [mbind option_bind] in Hpc. injection Hpc as <- <-.
  unfold schedule in Hsched.
  destruct (unpack_16I (slice mv cs (cs + 64))) as [w0|] eqn:Hw0; [|discriminate].
  cbn [mbind option_bind] in Hsched.
  destruct (unpack_h_inv _ _ _ _ Hs0) as (Hlen & _).
  destruct (unpack_h_work _ _ _ _ Hs0) as (v0 & Hv0 & ->).
  destruct (rounds_prefix_frame 64 _ _ Hs64) as (FK & Fh & Fw).
  cbn [locals_of Locals.K Locals.h Locals.w] in FK, Fh, Fw.
  rewrite accumulate_spec in Hacc by (rewrite Fh; exact Hlen).
  injection Hacc as <-. unfold Locals.set_h. cbn [Locals.K Locals.h]. rewrite FK, Fh.
  (* the heap side *)
  assert (K < length H /\ h < length H /\ msg < length H)%nat as (BK & Bh & Bm)
    by (repeat split; eapply lookup_lt_Some; eassumption).
  assert (h <> msg) as Hhm by (intros ->; rewrite Lh in Lm; discriminate).
  assert (K <> msg) as HKm by (intros ->; rewrite LK in Lm; discriminate).
  set (H1 := H ++ [Obytearray (slice mv cs (cs + 64))]).
  set (H2 := H1 ++ [Olist w0]).
  set (wl := length H1).
  set (H3 := <[wl := Olist w64]> H2).
  assert (length σ <= length H)%nat as Hσ
    by (destruct Hpre as [G ->]; rewrite length_app; lia).
  assert (call_frame σ K h msg Kv hv mv H3) as Hframe3.
  { apply call_frame_insert;
      [apply call_frame_new, call_frame_new; exact Hframe
      | subst wl H1; rewrite length_app; simpl; lia ..]. }
  pose proof Hframe3 as (_ & _ & _ & _ & LK3 & Lh3 & _).
  assert (H3 !! wl = Some (Olist w64)) as Lw3.
  { subst H3. apply list_lookup_insert_eq. subst H2 wl. rewrite length_app. simpl. lia. }
  exists (<[h := Olist (add_words hv (Locals.working s64))]> H3).
  split; [|split; [exact (call_frame_set_h σ K h msg Kv hv _ mv H3 Hframe3 Hhm)
                 | reflexivity]].
  unfold chunk_body.
  erewrite bind_Some by (unfold bytearray_items; rewrite Lm; reflexivity).
  erewrite bind_Some by reflexivity. fold H1.
  erewrite bind_Some
    by (unfold bytearray_items; subst H1; rewrite list_lookup_middle by reflexivity;
        reflexivity).
  cbv beta. erewrite bind_Some by (unfold lift; rewrite Hw0; reflexivity).
  erewrite bind_Some by reflexivity. fold H2. fold wl.
  erewrite bind_Some
    by (apply (extend_loop_at _ H2 wl w0 w64);
        [subst H2 wl; apply list_lookup_middle; reflexivity | exact Hsched]).
  fold H3.
  erewrite bind_Some by (unfold list_items; rewrite Lh3; reflexivity).
  erewrite bind_Some by (unfold lift; rewrite Hv0; reflexivity).
  erewrite bind_Some by (apply (rounds_at _ H3 K wl Kv hv w64 v0 s64 LK3 Lw3 Hs64)).
  rewrite (accumulate_at_ok H3 h hv _ Lh3 Hlen), work_items_working. reflexivity.
Qed.


Lemma chunk_loop_at σ K h msg Kv mv range : forall H hv Kh',
  call_frame σ K h msg Kv hv mv H ->
  for_in (process_chunk mv) range (Kv, hv) = Some Kh' ->
  exists H', for_each range (chunk_body K h msg) tt H = (Some tt, H') /\
             call_frame σ K h msg Kv Kh'.2 mv H' /\ Kh'.1 = Kv.
Proof.
  induction range as [|cs range IH]; intros H hv Kh' Hframe Hrun.
  - injection Hrun as <-. exists H. repeat split; try apply Hframe.
  - cbn [for_in] in Hrun.
    destruct (process_chunk mv cs (Kv, hv)) as [[Kv1 hv1]|] eqn:Hpc; [|discriminate].
    cbn [mbind option_bind] in Hrun.
    destruct (chunk_body_ok _ _ _ _ _ _ _ _ _ _ _ Hframe Hpc) as (H1 & Hstep & Hframe1 & ->).
    destruct (IH H1 hv1 Kh' Hframe1 Hrun) as (H' & Hrest & Hframe' & HK').
    exists H'. cbn [for_each]. rewrite (bind_Some _ _ _ _ _ Hstep).
    split; [exact Hrest|]. split; assumption.
Qed.

Lemma pad_zeros_eq l hp b :
  hp !! l = Some (Obytearray b) ->
  pad_zeros l hp =
    if decide ((len b * 8) mod 512 = 448) then (Some tt, hp)
    else pad_zeros l (<[l := Obytearray (b ++ [x00])]> hp).
Proof.
  intros Hm. rewrite pad_zeros_equation_1. unfold inspect.
  generalize (@eq_refl _ (hp !! l)). generalize (hp !! l) at 2 4.
  intros o Ho. pose proof Ho as Ho'. rewrite Hm in Ho'.
  destruct o as [[items|b0|b0|s]|]; try discriminate.
  injection Ho' as ->. cbn.
  destruct (decide ((len b0 * 8) mod 512 = 448)); reflexivity.
Qed.

Lemma pad_zeros_ok : forall b l hp,
  hp !! l = Some (Obytearray b) ->
  pad_zeros l hp = (Some tt, <[l := Obytearray (append_zeros b)]> hp).
Proof.
  intros b. funelim (append_zeros b); intros l hp Hm; rewrite (pad_zeros_eq _ _ _ Hm).
  - rewrite decide_True by assumption. rewrite list_insert_id by exact Hm. reflexivity.
  - rewrite decide_False by assumption.
    match goal with IH : forall l hp, _ -> pad_zeros _ _ = _ |- _ => rewrite IH end.
    + rewrite list_insert_insert_eq. reflexivity.
    + apply list_lookup_insert_eq. eapply lookup_lt_Some, Hm.
Qed.

Lemma prefix_of_insert (σ hp : list object) l o :
  σ `prefix_of` hp -> (length σ <= l)%nat -> σ `prefix_of` <[l := o]> hp.
Proof.
  intros [G ->] Hl. exists (<[(l - length σ)%nat := o]> G).
  rewrite insert_app_r_alt by lia. reflexivity.
Qed.

Lemma call_frame_set_msg σ K h msg Kv hv mv mv' hp :
  call_frame σ K h msg Kv hv mv hp -> (length σ <= msg)%nat ->
  call_frame σ K h msg Kv hv mv' (<[msg := Obytearray mv']> hp).
Proof.
  intros (Hpre & HK & Hh & Hne & LK & Lh & Lm) Hmsg.
  assert (h <> msg) as Hhm by (intros ->; rewrite Lh in Lm; discriminate).
  assert (K <> msg) as HKm by (intros ->; rewrite LK in Lm; discriminate).
  split; [apply prefix_of_insert; assumption|]. repeat split; auto.
  - rewrite list_lookup_insert_ne by auto. exact LK.
  - rewrite list_lookup_insert_ne by auto. exact Lh.
  - apply list_lookup_insert_eq. eapply lookup_lt_Some, Lm.
Qed.

(** A call, start to end: its result is the value of [sha256] at the
    bytes of the argument, and the heap it leaves begins with the heap it
    was given. *)
Lemma sha256_call_spec σ data o :
  σ !! data = Some o ->
  exists σ1, sha256_call data σ = (object_bytes o ≫= sha256, σ1) /\ σ `prefix_of` σ1.
Proof.
  intros Hdata. unfold sha256_call, _sha256_call.
  erewrite bind_Some by reflexivity. erewrite bind_Some by reflexivity. cbv beta.
  set (K := length σ). set (hp1 := σ ++ [Olist K_init]).
  set (h := length hp1). set (hp2 := hp1 ++ [Olist h_init]).
  assert (h = Datatypes.S K) as Eh by (subst h hp1 K; rewrite length_app; simpl; lia).
  assert (σ `prefix_of` hp2) as Hpre2
    by (exists [Olist K_init; Olist h_init]; subst hp2 hp1; rewrite <- app_assoc; reflexivity).
  assert (hp2 !! data = Some o) as Hdata2
    by (subst hp2 hp1; apply lookup_app_l_Some, lookup_app_l_Some; exact Hdata).
  unfold argument_bytes at 1.
  destruct (object_bytes o) as [bs|] eqn:Hbs.
  2:{ exists hp2. split; [|exact Hpre2].
      unfold bind at 1. rewrite Hdata2. cbn [mbind option_bind]. rewrite Hbs. reflexivity. }
  erewrite bind_Some by (rewrite Hdata2; cbn [mbind option_bind]; rewrite Hbs; reflexivity).
  erewrite bind_Some by reflexivity. cbv beta.
  set (msg := length hp2). set (hp3 := hp2 ++ [Obytearray bs]).
  assert (call_frame σ K h msg K_init h_init bs hp3) as Hframe3.
  { split; [destruct Hpre2 as [G ->]; exists (G ++ [Obytearray bs]);
            subst hp3; rewrite app_assoc; reflexivity|].
    repeat split; try lia.
    - subst hp3 hp2. apply lookup_app_l_Some, lookup_app_l_Some.
      subst hp1 K. apply list_lookup_middle. reflexivity.
    - subst hp3. apply lookup_app_l_Some. subst hp2 h. apply list_lookup_middle. reflexivity.
    - subst hp3 msg. apply list_lookup_middle. reflexivity. }
  assert (length σ <= msg)%nat as Hmsg
    by (subst msg hp2 hp1; rewrite !length_app; simpl; lia).
  pose proof (call_frame_set_msg _ _ _ _ _ _ _ (bs ++ [x80]) _ Hframe3 Hmsg) as Hframe4.
  set (hp4 := <[msg := Obytearray (bs ++ [x80])]> hp3) in *.
  erewrite bind_Some
    by (unfold bytearray_append, bytearray_extend;
        rewrite (proj2 (proj2 (proj2 (proj2 (proj2 (proj2 Hframe3)))))); reflexivity).
  fold hp4.
  pose proof (call_frame_set_msg _ _ _ _ _ _ _ (append_zeros (bs ++ [x80])) _ Hframe4 Hmsg)
    as Hframe5.
  set (hp5 := <[msg := Obytearray (append_zeros (bs ++ [x80]))]> hp4) in *.
  erewrite bind_Some
    by (apply pad_zeros_ok; apply Hframe4).
  fold hp5. unfold lift at 1.
  destruct (pack_Q (len bs * 8)) as [packed|] eqn:Hpack.
  2:{ exists hp5. split; [|apply Hframe5].
      unfold bind at 1. cbn [mbind option_bind].
      unfold sha256, _sha256, pad. rewrite Hpack. reflexivity. }
  erewrite bind_Some by reflexivity. cbv beta.
  set (mv := append_zeros (bs ++ [x80]) ++ packed).
  pose proof (call_frame_set_msg _ _ _ _ _ _ _ mv _ Hframe5 Hmsg) as Hframe6.
  set (hp6 := <[msg := Obytearray mv]> hp5) in *.
  erewrite bind_Some
    by (unfold bytearray_extend;
        rewrite (proj2 (proj2 (proj2 (proj2 (proj2 (proj2 Hframe5)))))); reflexivity).
  fold mv. fold hp6.
  erewrite bind_Some
    by (unfold bytearray_items;
        rewrite (proj2 (proj2 (proj2 (proj2 (proj2 (proj2 Hframe6)))))); reflexivity).
  cbv beta.
  assert (pad bs = Some mv) as Hpad by (unfold pad; rewrite Hpack; reflexivity).
  destruct (chunk_loop_ok mv (K_init, h_init) (pad_length_mod _ _ Hpad) state_ok_init)
    as (Kh & Hloop & _).
  destruct (chunk_loop_at _ _ _ _ _ _ _ _ _ _ Hframe6 Hloop) as (hp7 & Hrun & Hframe7 & _).
  erewrite bind_Some by exact Hrun.
  erewrite bind_Some
    by (unfold list_items;
        rewrite (proj1 (proj2 (proj2 (proj2 (proj2 (proj2 Hframe7)))))); reflexivity).
  exists hp7. split; [|apply Hframe7].
  unfold ret. cbn [mbind option_bind]. unfold sha256, _sha256. rewrite Hpad.
  cbn [mbind option_bind]. rewrite Hloop. reflexivity.
Qed.

End Calls.

(** C9.  Two calls of [sha256] on the same argument give the same
    result, and the result depends on the bytes of the argument alone.
    The calls run one after the other on the heap of Python objects: the
    first leaves every object of the caller as it was (what it allocates
    and mutates -- [K], [h], [msg], [chunk], [w] -- is its own), so the
    second, started on the heap the first has left, sees the same bytes
    and returns the same; and so does a call on any other heap whose
    argument holds these bytes.  The common result is the value of the
    function [sha256] at the bytes. *)
Theorem sha256_deterministic (σ : list object) (data : nat) (o : object) :
  σ !! data = Some o ->
  exists result σ1 σ2,
    sha256_call data σ = (result, σ1) /\
    σ `prefix_of` σ1 /\
    sha256_call data σ1 = (result, σ2) /\
    result = object_bytes o ≫= sha256 /\
    forall σ' data' o',
      σ' !! data' = Some o' -> object_bytes o' = object_bytes o ->
      (sha256_call data' σ').1 = result.
Proof.
  intros Hdata.
  destruct (sha256_call_spec σ data o Hdata) as (σ1 & Hcall1 & Hpre).
  assert (σ1 !! data = Some o) as Hdata1
    by (destruct Hpre as [G ->]; apply lookup_app_l_Some; exact Hdata).
  destruct (sha256_call_spec σ1 data o Hdata1) as (σ2 & Hcall2 & _).
  exists (object_bytes o ≫= sha256), σ1, σ2.
  repeat (split; [assumption || reflexivity|]).
  intros σ' data' o' Hdata' Hbytes.
  destruct (sha256_call_spec σ' data' o' Hdata') as (σ1' & Hcall' & _).
  rewrite Hcall', Hbytes. reflexivity.
Qed.

Lemma sha256_deterministic_witness :
  exists result σ1 σ2,
    sha256_call 0 [Obytes [x61; x62; x63]] = (result, σ1) /\
    sha256_call 0 σ1 = (result, σ2) /\
    result = Some "ba7816bf8f01cfea414140de5dae2223b00361a396177a9cb410ff61f20015ad"%string.
Proof.
  destruct (sha256_deterministic [Obytes [x61; x62; x63]] 0 (Obytes [x61; x62; x63]))
    as (result & σ1 & σ2 & H1 & _ & H2 & Hr & _).
  - reflexivity.
  - exists result, σ1, σ2. split; [exact H1|]. split; [exact H2|].
    rewrite Hr. vm_compute. reflexivity.
Defined.

(** * Further properties of the code *)

(** ** [_rightrotate] *)

(** X1.  On 32-bit words two rotations make one: rotating by [a] and then
    by [b] is rotating by [a + b], counted around the 32 positions. *)
Theorem _rightrotate_compose (x a b : Z) :
  is_word x -> 0 <= a <= 32 -> 0 <= b <= 32 ->
  _rightrotate (_rightrotate x a) b = _rightrotate x ((a + b) mod 32).
Proof.
  intros Hx Ha Hb. apply Z.bits_inj'. intros i Hi.
  assert (0 <= (a + b) mod 32 < 32) as Hab by (apply Z.mod_pos_bound; lia).
  rewrite (_rightrotate_bits (_rightrotate x a) b)
    by (auto; unfold _rightrotate; apply land_mask32_word).
  rewrite (_rightrotate_bits x ((a + b) mod 32)) by (auto; lia).
  destruct (decide (i < 32)) as [Hlt|]; [|reflexivity].
  assert (0 <= (i + b) mod 32 < 32) as Hib by (apply Z.mod_pos_bound; lia).
  rewrite _rightrotate_bits by (auto; lia). rewrite decide_True by lia.
  f_equal. rewrite Z.add_mod_idemp_l, Z.add_mod_idemp_r by lia.
  f_equal. lia.
Qed.

Lemma _rightrotate_compose_witness :
  _rightrotate (_rightrotate 0x80000001 7) 30 = _rightrotate 0x80000001 5.
Proof.
  apply (_rightrotate_compose 0x80000001 7 30); unfold is_word; lia.
Defined.

(** X2.  A rotation is undone by the complementary one, so it loses no
    bit of a 32-bit word. *)
Theorem _rightrotate_inverse (x b : Z) :
  is_word x -> 0 <= b <= 32 -> _rightrotate (_rightrotate x b) (32 - b) = x.
Proof.
  intros Hx Hb. apply Z.bits_inj'. intros i Hi.
  rewrite (_rightrotate_bits (_rightrotate x b) (32 - b))
    by (auto; try lia; unfold _rightrotate; apply land_mask32_word).
  destruct (decide (i < 32)) as [Hlt|Hge].
  - assert (0 <= (i + (32 - b)) mod 32 < 32) as Hib by (apply Z.mod_pos_bound; lia).
    rewrite _rightrotate_bits by (auto; lia). rewrite decide_True by lia.
    f_equal. rewrite Z.add_mod_idemp_l by lia.
    replace (i + (32 - b) + b) with (i + 1 * 32) by lia.
    rewrite Z.mod_add by lia. apply Z.mod_small. lia.
  - symmetry. apply word_bits_high; [exact Hx | lia].
Qed.

Lemma _rightrotate_inverse_witness :
  _rightrotate (_rightrotate 0x6a09e667 13) 19 = 0x6a09e667.
Proof.
  apply (_rightrotate_inverse 0x6a09e667 13); unfold is_word; lia.
Defined.

(** ** Padding *)

Section PaddingMore.

Lemma pack_Q_inv n packed :
  pack_Q n = Some packed ->
  0 <= n < 2 ^ 64 /\ length packed = 8%nat /\ be_int packed = n.
Proof.
  intros H. assert (0 <= n < 2 ^ 64) as Hn.
  { unfold pack_Q in H. destruct (decide (0 <= n < 2 ^ 64)); [assumption | discriminate]. }
  destruct (pack_Q_Some n Hn) as (p & Hp & Hl & Hv).
  assert (p = packed) as <- by congruence. auto.
Qed.

End PaddingMore.

(** X3.  Padding can be undone: two inputs with the same padded message
    are the same input.  The length field at the end tells where the
    input stops. *)
Theorem pad_injective (d1 d2 msg : list byte) :
  pad d1 = Some msg -> pad d2 = Some msg -> d1 = d2.
Proof.
  intros H1 H2.
  destruct (pad_inv d1 msg H1) as (p1 & Hp1 & E1).
  destruct (pad_inv d2 msg H2) as (p2 & Hp2 & E2).
  destruct (pack_Q_inv _ _ Hp1) as (_ & Hl1 & Hv1).
  destruct (pack_Q_inv _ _ Hp2) as (_ & Hl2 & Hv2).
  rewrite E1 in E2. rewrite !app_assoc in E2.
  destruct (app_inj_2 _ _ _ _ (eq_trans Hl1 (eq_sym Hl2)) E2) as [Efront ->].
  assert (length d1 = length d2) as Hlen by (unfold len in *; lia).
  rewrite <- !app_assoc in Efront.
  exact (proj1 (app_inj_1 _ _ _ _ Hlen Efront)).
Qed.

Lemma pad_injective_witness :
  exists msg,
    pad [x61; x62; x63] = Some msg /\ [x61; x62; x63] = list_byte_of_string "abc".
Proof.
  eexists. split; [vm_compute; reflexivity|].
  eapply (pad_injective [x61; x62; x63] (list_byte_of_string "abc"));
    vm_compute; reflexivity.
Defined.

(** X4.  Padding adds at least 9 and at most 72 bytes. *)
Theorem pad_overhead (data msg : list byte) :
  pad data = Some msg -> len data + 9 <= len msg <= len data + 72.
Proof.
  intros H. apply pad_length in H. pose proof (len_nonneg data).
  rewrite H. Z.to_euclidean_division_equations. lia.
Qed.

Lemma pad_overhead_witness :
  exists msg,
    pad (repeat x00 56) = Some msg /\
    len (repeat x00 56) + 9 <= len msg <= len (repeat x00 56) + 72.
Proof.
  eexists. split; [vm_compute; reflexivity|].
  apply pad_overhead. vm_compute. reflexivity.
Defined.

(** ** The chunk loop *)

Section ChunkLoopMore.

Lemma for_in_app {S} (body : nat -> S -> option S) r1 r2 s :
  for_in body (r1 ++ r2) s = for_in body r1 s ≫= for_in body r2.
Proof.
  revert s. induction r1 as [|i r1 IH]; intros s; simpl; [reflexivity|].
  destruct (body i s) as [t|]; simpl; [apply IH | reflexivity].
Qed.

Lemma for_in_ext {S} (body1 body2 : nat -> S -> option S) range s :
  (forall i t, In i range -> body1 i t = body2 i t) ->
  for_in body1 range s = for_in body2 range s.
Proof.
  revert s. induction range as [|i range IH]; intros s Hext; simpl; [reflexivity|].
  rewrite (Hext i s) by (left; reflexivity).
  destruct (body2 i s) as [t|]; simpl; [|reflexivity].
  apply IH. intros j u Hj. apply Hext. right. exact Hj.
Qed.

Lemma for_in_map {S} (body : nat -> S -> option S) (g : nat -> nat) range s :
  for_in body (map g range) s = for_in (fun i => body (g i)) range s.
Proof.
  revert s. induction range as [|i range IH]; intros s; simpl; [reflexivity|].
  destruct (body (g i) s) as [t|]; simpl; [apply IH | reflexivity].
Qed.

(** A pass that raises makes the loop raise. *)
Lemma for_in_raises {S} (body : nat -> S -> option S) range i s :
  In i range -> (forall t, body i t = None) -> for_in body range s = None.
Proof.
  revert s. induction range as [|j range IH]; intros s Hi Hnone; [destruct Hi|].
  simpl. destruct Hi as [->|Hi].
  - rewrite Hnone. reflexivity.
  - destruct (body j s) as [t|]; simpl; [apply IH; assumption | reflexivity].
Qed.

Lemma range_64_app a b :
  (a mod 64 = 0)%nat ->
  range_64 (a + b) = range_64 a ++ map (fun cs => a + cs)%nat (range_64 b).
Proof.
  intros Ha. unfold range_64.
  pose proof (Nat.div_mod_eq a 64) as Hdm. rewrite Ha, Nat.add_0_r in Hdm.
  set (p := (a / 64)%nat) in *.
  assert ((a + 63) / 64 = p)%nat as E1.
  { rewrite Hdm, Nat.mul_comm, Nat.div_add_l by lia. simpl. lia. }
  assert ((a + b + 63) / 64 = p + (b + 63) / 64)%nat as E2.
  { rewrite Hdm, <- Nat.add_assoc, Nat.mul_comm, Nat.div_add_l by lia. reflexivity. }
  rewrite E1, E2, seq_app, map_app. f_equal.
  rewrite map_map. cbn [Nat.add].
  pose proof (fmap_add_seq p 0 ((b + 63) / 64)) as Hs. rewrite Nat.add_0_r in Hs.
  rewrite <- Hs. change (Nat.add p <$> seq 0 ((b + 63) / 64))
    with (map (Nat.add p) (seq 0 ((b + 63) / 64))).
  rewrite map_map. apply map_ext. intros j. lia.
Qed.

Lemma slice_app_l {A} (l k : list A) i j :
  (j <= length l)%nat -> slice (l ++ k) i j = slice l i j.
Proof.
  intros Hj. unfold slice. destruct (decide (i <= j)%nat) as [Hij|Hij].
  - rewrite drop_app_le by lia. apply take_app_le. rewrite length_drop. lia.
  - replace (j - i)%nat with 0%nat by lia. reflexivity.
Qed.

Lemma slice_app_r {A} (l k : list A) i j :
  slice (l ++ k) (length l + i) (length l + j) = slice k i j.
Proof.
  unfold slice. rewrite drop_app_add. f_equal. lia.
Qed.

Lemma process_chunk_app_l m1 m2 cs Kh :
  (cs + 64 <= length m1)%nat -> process_chunk (m1 ++ m2) cs Kh = process_chunk m1 cs Kh.
Proof.
  intros Hcs. unfold process_chunk. rewrite slice_app_l by exact Hcs. reflexivity.
Qed.

Lemma process_chunk_app_r m1 m2 cs Kh :
  process_chunk (m1 ++ m2) (length m1 + cs) Kh = process_chunk m2 cs Kh.
Proof.
  unfold process_chunk.
  replace (length m1 + cs + 64)%nat with (length m1 + (cs + 64))%nat by lia.
  rewrite slice_app_r. reflexivity.
Qed.

Lemma chunk_loop_app m1 m2 Kh :
  (length m1 mod 64 = 0)%nat ->
  chunk_loop (m1 ++ m2) Kh = chunk_loop m1 Kh ≫= chunk_loop m2.
Proof.
  intros Hm1. unfold chunk_loop.
  rewrite length_app, range_64_app, for_in_app by exact Hm1.
  rewrite (for_in_ext (process_chunk (m1 ++ m2)) (process_chunk m1)).
  - destruct (for_in (process_chunk m1) (range_64 (length m1)) Kh) as [Kh1|];
      [|reflexivity].
    cbn [mbind option_bind]. rewrite for_in_map. apply for_in_ext.
    intros cs t _. apply process_chunk_app_r.
  - intros cs t Hcs. apply process_chunk_app_l. apply range_64_bound; assumption.
Qed.

End ChunkLoopMore.

Section Chunks.

Lemma range_64_length n : length (range_64 n) = ((n + 63) / 64)%nat.
Proof. unfold range_64. rewrite length_map, length_seq. reflexivity. Qed.

(** The slices the loop takes, in order, put the message back together,
    whatever its length. *)
Lemma slices_concat k : forall msg : list byte,
  ((length msg + 63) / 64 = k)%nat ->
  List.concat (map (fun j => slice msg (64 * j) (64 * j + 64)) (seq 0 k)) = msg.
Proof.
  induction k as [|k IH]; intros msg Hk.
  - pose proof (Nat.div_mod_eq (length msg + 63) 64) as Hdm.
    pose proof (Nat.mod_upper_bound (length msg + 63) 64).
    destruct msg; [reflexivity | simpl in *; lia].
  - cbn [seq map List.concat]. rewrite <- seq_shift, map_map.
    transitivity (take 64 msg ++ drop 64 msg); [|apply take_drop].
    change (slice msg (64 * 0) (64 * 0 + 64)) with (take 64 msg).
    apply (f_equal (app (take 64 msg))).
    transitivity (List.concat
      (map (fun j => slice (drop 64 msg) (64 * j) (64 * j + 64)) (seq 0 k))).
    + apply (f_equal (@List.concat byte)). apply map_ext. intros j. unfold slice.
      rewrite drop_drop. f_equal; [lia | f_equal; lia].
    + apply IH. rewrite length_drop.
        pose proof (Nat.div_mod_eq (length msg + 63) 64) as Hdm.
        pose proof (Nat.mod_upper_bound (length msg + 63) 64).
        pose proof (Nat.div_mod_eq (length msg - 64 + 63) 64) as Hdm'.
        pose proof (Nat.mod_upper_bound (length msg - 64 + 63) 64).
        lia.
Qed.

Lemma last_chunk_short (msg : list byte) :
  (length msg mod 64 <> 0)%nat ->
  exists cs, In cs (range_64 (length msg)) /\
    (length (slice msg cs (cs + 64)) < 64)%nat.
Proof.
  intros Hmod.
  pose proof (Nat.div_mod_eq (length msg) 64) as Hdm.
  pose proof (Nat.mod_upper_bound (length msg) 64).
  pose proof (Nat.div_mod_eq (length msg + 63) 64) as Hdm'.
  pose proof (Nat.mod_upper_bound (length msg + 63) 64).
  exists (64 * (length msg / 64))%nat. split.
  - unfold range_64. apply in_map_iff. exists (length msg / 64)%nat.
    split; [reflexivity|]. apply in_seq. lia.
  - unfold slice. rewrite length_take, length_drop. lia.
Qed.

Lemma process_chunk_short msg cs Kh :
  length (slice msg cs (cs + 64)) <> 64%nat -> process_chunk msg cs Kh = None.
Proof.
  intros Hlen. unfold process_chunk, schedule, unpack_16I.
  rewrite decide_False by exact Hlen. reflexivity.
Qed.

End Chunks.

(** X5.  The state carries forward from block to block: hashing the
    chunks of [m1 ++ m2], where [m1] is a whole number of blocks, is
    hashing the chunks of [m1] and then, from the state reached, those of
    [m2]. *)
Theorem chunk_loop_compose (m1 m2 : list byte) (Kh : list Z * list Z) :
  (length m1 mod 64 = 0)%nat ->
  chunk_loop (m1 ++ m2) Kh = chunk_loop m1 Kh ≫= chunk_loop m2.
Proof. apply chunk_loop_app. Qed.

Lemma chunk_loop_compose_witness :
  chunk_loop (repeat x00 64 ++ repeat x01 64) (K_init, h_init)
  = chunk_loop (repeat x00 64) (K_init, h_init) ≫= chunk_loop (repeat x01 64).
Proof. apply (chunk_loop_compose (repeat x00 64) (repeat x01 64)). reflexivity. Defined.

(** X6.  The chunk loop raises ([struct.error] from [struct.unpack]) on a
    message that is not a whole number of 64-byte blocks, and on no
    other: padding to a block boundary is what lets it run. *)
Theorem chunk_loop_needs_blocks (msg : list byte) (Kh : list Z * list Z) :
  state_ok Kh ->
  (is_Some (chunk_loop msg Kh) <-> (length msg mod 64 = 0)%nat).
Proof.
  intros Hok. split.
  - intros [Kh' Hrun]. destruct (decide (length msg mod 64 = 0)%nat) as [|Hmod]; [assumption|].
    destruct (last_chunk_short msg Hmod) as (cs & Hin & Hshort).
    unfold chunk_loop in Hrun.
    rewrite (for_in_raises (process_chunk msg) _ cs Kh Hin) in Hrun; [discriminate|].
    intros t. apply process_chunk_short. lia.
  - intros Hmod. destruct (chunk_loop_ok msg Kh Hmod Hok) as (Kh' & Hrun & _).
    exists Kh'. exact Hrun.
Qed.

Lemma chunk_loop_needs_blocks_witness :
  is_Some (chunk_loop (repeat x00 128) (K_init, h_init)) /\
  chunk_loop (repeat x00 100) (K_init, h_init) = None.
Proof.
  split.
  - apply (chunk_loop_needs_blocks (repeat x00 128) (K_init, h_init) state_ok_init).
    reflexivity.
  - destruct (chunk_loop (repeat x00 100) (K_init, h_init)) as [Kh|] eqn:E; [|reflexivity].
    exfalso.
    pose proof (proj1 (chunk_loop_needs_blocks (repeat x00 100) (K_init, h_init)
                         state_ok_init)) as H.
    rewrite E in H. specialize (H (ex_intro _ Kh eq_refl)). revert H. vm_compute.
    discriminate.
Defined.

(** X7.  The loop takes the padded message as consecutive 64-byte chunks:
    the slices are 64 bytes each, put together they are the padded
    message, and there are [(len(data) + 8) // 64 + 1] of them. *)
Theorem chunks_partition (data msg : list byte) :
  pad data = Some msg ->
  let chunks := map (fun cs => slice msg cs (cs + 64)) (range_64 (length msg)) in
  List.concat chunks = msg /\ Forall (fun c => length c = 64%nat) chunks /\
  len chunks = (len data + 8) / 64 + 1.
Proof.
  intros Hpad chunks. subst chunks. split; [|split].
  - unfold range_64. rewrite map_map. apply slices_concat. reflexivity.
  - apply Forall_forall. intros c Hc. apply list_elem_of_In, in_map_iff in Hc.
    destruct Hc as (cs & <- & Hcs).
    pose proof (range_64_bound _ _ (pad_length_mod _ _ Hpad) Hcs).
    rewrite slice_length by lia. lia.
  - unfold len at 1. rewrite length_map, range_64_length.
    pose proof (pad_length _ _ Hpad) as Hl. unfold len in Hl at 1.
    rewrite Nat2Z.inj_div, Nat2Z.inj_add, Hl. simpl Z.of_nat.
    pose proof (len_nonneg data). Z.to_euclidean_division_equations. lia.
Qed.

Lemma chunks_partition_witness :
  exists msg,
    pad (repeat x00 56) = Some msg /\
    len (map (fun cs => slice msg cs (cs + 64)) (range_64 (length msg))) = 2.
Proof.
  eexists. split; [vm_compute; reflexivity|].
  apply (chunks_partition (repeat x00 56)). vm_compute. reflexivity.
Defined.

(** ** [sha256] as a whole *)

(** X8.  Length extension.  Let [pm] be the padded form of [m] and [h] the
    state words after hashing it, which [sha256(m)] renders.  Then the
    digest of [pm ++ ext] is obtained by running the chunk loop from [h]
    over [ext] and its padding alone: beyond [h] and the length of [pm],
    nothing of [m] is needed. *)
Theorem length_extension (m ext pm : list byte) (h : list Z) :
  pad m = Some pm ->
  chunk_loop pm (K_init, h_init) = Some (K_init, h) ->
  fits_length_field (pm ++ ext) ->
  exists packed,
    pack_Q (len (pm ++ ext) * 8) = Some packed /\
    sha256 m = Some (hexdigest h) /\
    sha256 (pm ++ ext) =
      chunk_loop (ext ++ [x80] ++ repeat x00 (zero_count (pm ++ ext)) ++ packed)
                 (K_init, h)
      ≫= fun Kh => Some (hexdigest Kh.2).
Proof.
  intros Hpm Hloop Hfit.
  destruct (pad_Some _ Hfit) as [msg Hmsg].
  destruct (pad_inv _ _ Hmsg) as (packed & Hp & ->).
  exists packed. split; [exact Hp|]. split.
  - unfold sha256, _sha256. rewrite Hpm. cbn [mbind option_bind].
    rewrite Hloop. reflexivity.
  - unfold sha256, _sha256. rewrite Hmsg. cbn [mbind option_bind].
    rewrite <- app_assoc, chunk_loop_app by (eapply pad_length_mod, Hpm).
    rewrite Hloop. reflexivity.
Qed.

Lemma length_extension_witness :
  exists pm h packed,
    pad [x61] = Some pm /\ sha256 [x61] = Some (hexdigest h) /\
    sha256 (pm ++ [x62]) =
      chunk_loop ([x62] ++ [x80] ++ repeat x00 (zero_count (pm ++ [x62])) ++ packed)
                 (K_init, h)
      ≫= fun Kh => Some (hexdigest Kh.2).
Proof.
  pose (pm := [x61; x80] ++ repeat x00 61 ++ [x08]).
  assert (pad [x61] = Some pm) as Hpm by (vm_compute; reflexivity).
  destruct (chunk_loop_ok pm (K_init, h_init)) as ([K h] & Hloop & HK & _);
    [reflexivity | apply state_ok_init |].
  cbn [fst] in HK. subst K.
  destruct (length_extension [x61] [x62] pm h Hpm Hloop) as (packed & _ & Hd & Hx);
    [vm_compute; reflexivity|].
  exists pm, h, packed. split; [exact Hpm|]. split; [exact Hd | exact Hx].
Defined.

(** X9.  [sha256] returns a digest exactly for the inputs whose bit-length
    is below [2^64]; for a longer one [struct.pack('>Q', ...)] raises. *)
Theorem sha256_defined_iff (data : list byte) :
  is_Some (sha256 data) <-> fits_length_field data.
Proof.
  split.
  - intros [d Hd]. exact (sha256_fits data d Hd).
  - intros Hfit. destruct (sha256_run data Hfit) as (msg & Kh & _ & _ & _ & H).
    eexists. exact H.
Qed.

Lemma sha256_defined_iff_witness : is_Some (sha256 [x00; xff]).
Proof. apply (sha256_defined_iff [x00; xff]). vm_compute. reflexivity. Defined.

(** ** The compression rounds and FIPS 180-4 *)

Section Fips.

(** Python's [~e] is negative, but under [& g] it acts as the 32-bit
    complement. *)
Lemma land_lnot_word e g :
  is_word e -> is_word g -> Z.land (Z.lnot e) g = Z.land (not32 e) g.
Proof.
  intros He Hg. apply Z.bits_inj'. intros i Hi. rewrite !Z.land_spec.
  destruct (decide (i < 32)) as [Hlt|Hge].
  - f_equal. replace (not32 e) with (Z.lnot e mod 2 ^ 32).
    + symmetry. apply Z.mod_pow2_bits_low. exact Hlt.
    + unfold not32, Z.lnot, is_word in *. rewrite <- Z.sub_1_r.
      symmetry. apply (Z.mod_unique_pos _ _ (-1)); [lia | ring].
  - rewrite (word_bits_high g i) by (auto; lia). rewrite !andb_false_r. reflexivity.
Qed.

Lemma round_fips i s K_i w_i :
  Forall is_word (Locals.working s) ->
  Locals.K s !! i = Some K_i -> Locals.w s !! i = Some w_i ->
  exists s',
    round i s = Some s' /\ same_lists s s' /\
    Locals.working s' = fips_step K_i w_i (Locals.working s) /\
    Forall is_word (Locals.working s').
Proof.
  destruct s as [K h w a b c d e f g h_val]. unfold Locals.working.
  cbn [Locals.K Locals.w Locals.a Locals.b Locals.c Locals.d
       Locals.e Locals.f Locals.g Locals.h_val].
  intros Hw HK Hwi.
  repeat match goal with
  | H : Forall _ (_ :: _) |- _ => apply Forall_cons_1 in H; destruct H as [? H]
  end.
  unfold round, get_item. rewrite HK, Hwi. cbn [mbind option_bind].
  eexists. split; [reflexivity|]. split; [repeat split|].
  cbn [Locals.a Locals.b Locals.c Locals.d Locals.e Locals.f
       Locals.g Locals.h_val fips_step].
  unfold Sigma0, Sigma1, Ch, Maj.
  rewrite !_rightrotate_rotr by (auto; lia).
  rewrite land_lnot_word by assumption. rewrite !land_mask32.
  split; [reflexivity|].
  repeat (apply Forall_cons; split; [first [assumption | apply Z.mod_pos_bound; lia]|]).
  apply Forall_nil. exact I.
Qed.

Lemma rounds_prefix_fips n : forall s,
  (n <= length (Locals.K s))%nat -> (n <= length (Locals.w s))%nat ->
  Forall is_word (Locals.working s) ->
  exists s',
    for_in round (seq 0 n) s = Some s' /\ same_lists s s' /\
    Locals.working s' = fips_steps (Locals.K s) (Locals.w s) n (Locals.working s) /\
    Forall is_word (Locals.working s').
Proof.
  induction n as [|n IH]; intros s HK Hw Hv.
  - exists s. repeat split; assumption.
  - destruct (IH s) as (s1 & Hrun & (EK & Eh & Ew) & Hwork & Hv1); [lia | lia | exact Hv |].
    destruct (lookup_lt_is_Some_2 (Locals.K s) n) as [K_n HKn]; [lia|].
    destruct (lookup_lt_is_Some_2 (Locals.w s) n) as [w_n Hwn]; [lia|].
    destruct (round_fips n s1 K_n w_n Hv1) as (s2 & Hstep & (FK & Fh & Fw) & Hwork2 & Hv2);
      [congruence | congruence |].
    exists s2. rewrite seq_S, for_in_app, Hrun. cbn [mbind option_bind Nat.add for_in].
    rewrite Hstep. cbn [mbind option_bind].
    split; [reflexivity|]. split; [repeat split; congruence|]. split; [|exact Hv2].
    unfold fips_steps. rewrite seq_S, fold_left_app. cbn [fold_left Nat.add].
    fold (fips_steps (Locals.K s) (Locals.w s) n (Locals.working s)).
    rewrite <- Hwork, Hwork2.
    rewrite (nth_lookup_Some _ _ 0 _ HKn), (nth_lookup_Some _ _ 0 _ Hwn). reflexivity.
Qed.

End Fips.

(** X10.  On 32-bit working variables one pass of the compression loop is
    the round of FIPS 180-4: the unbounded [~e] acts as the 32-bit
    complement in [Ch], the shift-or-mask rotations are circular ones, and
    the new working variables are 32-bit words again. *)
Theorem round_is_fips_step (i : nat) (s : Locals.t) (K_i w_i : Z) :
  Forall is_word (Locals.working s) ->
  Locals.K s !! i = Some K_i -> Locals.w s !! i = Some w_i ->
  exists s',
    round i s = Some s' /\
    Locals.working s' = fips_step K_i w_i (Locals.working s) /\
    Forall is_word (Locals.working s').
Proof.
  intros Hv HK Hw.
  destruct (round_fips i s K_i w_i Hv HK Hw) as (s' & Hstep & _ & Hwork & Hv').
  exists s'. auto.
Qed.

Lemma round_is_fips_step_witness :
  exists s',
    round 0 (Locals.mk K_init h_init [0] 1 2 3 4 5 6 7 8) = Some s' /\
    Locals.working s' = fips_step 0x428a2f98 0 [1; 2; 3; 4; 5; 6; 7; 8].
Proof.
  destruct (round_is_fips_step 0 (Locals.mk K_init h_init [0] 1 2 3 4 5 6 7 8)
              0x428a2f98 0) as (s' & Hstep & Hwork & _).
  - unfold Locals.working. cbn. repeat (constructor; [unfold is_word; lia|]). constructor.
  - reflexivity.
  - reflexivity.
  - exists s'. split; [exact Hstep | exact Hwork].
Defined.

(** X11.  The 64 passes over a block are the 64 steps of FIPS 180-4 in
    the order [t = 0 .. 63], each with [K[t]] and [w[t]], starting from
    the state words. *)
Theorem rounds_are_fips_steps (K h w : list Z) :
  length K = 64%nat -> length w = 64%nat -> length h = 8%nat -> Forall is_word h ->
  exists s0 s64,
    unpack_h K h w = Some s0 /\ rounds s0 = Some s64 /\
    Locals.working s64 = fips_steps K w 64 h /\
    Forall is_word (Locals.working s64).
Proof.
  intros HK Hw Hh Hwords.
  destruct (unpack_h_Some K h w Hh) as (s0 & Hs0 & EK & Eh & Ew & Ework).
  destruct (rounds_prefix_fips 64 s0) as (s64 & Hrun & _ & Hwork & Hv);
    [rewrite EK; lia | rewrite Ew; lia | rewrite Ework; exact Hwords |].
  exists s0, s64. split; [exact Hs0|]. split; [exact Hrun|]. split; [|exact Hv].
  rewrite Hwork, EK, Ew, Ework. reflexivity.
Qed.

Lemma rounds_are_fips_steps_witness :
  exists s0 s64,
    unpack_h K_init h_init (repeat 0 64) = Some s0 /\ rounds s0 = Some s64 /\
    Locals.working s64 = fips_steps K_init (repeat 0 64) 64 h_init.
Proof.
  destruct (rounds_are_fips_steps K_init h_init (repeat 0 64))
    as (s0 & s64 & H0 & H64 & Hwork & _).
  - reflexivity.
  - reflexivity.
  - reflexivity.
  - apply state_ok_init.
  - exists s0, s64. auto.
Defined.

(** ** Reading the digest back *)

Section ReadBack.

Lemma digit_value_hex_digit n : (n < 16)%N -> digit_value (hex_digit n) = n.
Proof.
  intros Hn. rewrite <- (N2Nat.id n). assert (N.to_nat n < 16)%nat as Hk by lia.
  revert Hk. generalize (N.to_nat n). intros k Hk.
  do 16 (destruct k as [|k]; [reflexivity|]). lia.
Qed.

Lemma hex_value_snoc cs c :
  hex_value (cs ++ [c]) = (hex_value cs * 16 + digit_value c)%N.
Proof. unfold hex_value. rewrite fold_left_app. reflexivity. Qed.

Lemma hex_value_hex_fixed k n :
  hex_value (hex_fixed k n) = (n mod 16 ^ N.of_nat k)%N.
Proof.
  revert n. induction k as [|k IH]; intros n.
  - cbn. rewrite N.mod_1_r. reflexivity.
  - cbn [hex_fixed]. rewrite hex_value_snoc, IH.
    rewrite digit_value_hex_digit by (apply N.mod_lt; discriminate).
    rewrite Nat2N.inj_succ, N.pow_succ_r', N.Div0.mod_mul_r. lia.
Qed.

Lemma flat_map_group {A B} (f : A -> list B) (n : nat) (l : list A) :
  (forall x, length (f x) = n) ->
  forall i x, l !! i = Some x -> take n (drop (n * i) (flat_map f l)) = f x.
Proof.
  intros Hlen. induction l as [|y l IH]; intros i x Hi; [discriminate|].
  cbn [flat_map]. destruct i as [|i].
  - injection Hi as ->. rewrite Nat.mul_0_r, drop_0.
    rewrite take_app_le by (rewrite Hlen; lia).
    rewrite <- (Hlen x). apply firstn_all.
  - cbn [lookup list_lookup] in Hi.
    replace (n * Datatypes.S i)%nat with (length (f y) + n * i)%nat
      by (rewrite Hlen; lia).
    rewrite drop_app_add. apply IH. exact Hi.
Qed.

End ReadBack.

(** X12.  The digest can be read back: the [i]-th group of eight
    characters, taken as a hexadecimal number, is the [i]-th state
    word. *)
Theorem hexdigest_read_back (h : list Z) (i : nat) (x : Z) :
  Forall is_word h -> h !! i = Some x ->
  hex_value (take 8 (drop (8 * i) (chars (hexdigest h)))) = Z.to_N x.
Proof.
  intros Hw Hi. rewrite hexdigest_chars by exact Hw.
  rewrite (flat_map_group _ 8 h (fun y => hex_fixed_length 8 (Z.to_N y)) i x Hi).
  rewrite hex_value_hex_fixed.
  assert (is_word x) as [H0 H1]
    by (eapply Forall_forall; [exact Hw | eapply list_elem_of_lookup_2, Hi]).
  apply N.mod_small. change (16 ^ N.of_nat 8)%N with (Z.to_N (2 ^ 32)). lia.
Qed.

Lemma hexdigest_read_back_witness :
  hex_value (take 8 (drop (8 * 1) (chars (hexdigest h_init)))) = Z.to_N 0xbb67ae85.
Proof.
  apply (hexdigest_read_back h_init 1 0xbb67ae85); [apply state_ok_init | reflexivity].
Defined.

(** X13.  Lists of 32-bit words with the same rendering are the same
    list: the digest string determines the final state. *)
Theorem hexdigest_injective (h1 h2 : list Z) :
  Forall is_word h1 -> Forall is_word h2 -> hexdigest h1 = hexdigest h2 -> h1 = h2.
Proof.
  intros H1 H2 Heq.
  assert (chars (hexdigest h1) = chars (hexdigest h2)) as Hc by (rewrite Heq; reflexivity).
  rewrite !hexdigest_chars in Hc by assumption. clear Heq.
  revert h2 H2 Hc. induction H1 as [|x h1 Hx _ IH]; intros h2 H2 Hc.
  - destruct H2 as [|y h2 Hy _]; [reflexivity|].
    cbn [flat_map] in Hc. apply (f_equal (@length ascii)) in Hc.
    rewrite length_app, hex_fixed_length in Hc. simpl in Hc. lia.
  - destruct H2 as [|y h2 Hy H2].
    + cbn [flat_map] in Hc. apply (f_equal (@length ascii)) in Hc.
      rewrite length_app, hex_fixed_length in Hc. simpl in Hc. lia.
    + cbn [flat_map] in Hc.
      destruct (app_inj_1 _ _ _ _
                  (eq_trans (hex_fixed_length 8 _) (eq_sym (hex_fixed_length 8 _))) Hc)
        as [Ehead Etail].
      f_equal; [|apply IH; assumption].
      apply (f_equal hex_value) in Ehead. rewrite !hex_value_hex_fixed in Ehead.
      unfold is_word in Hx, Hy.
      rewrite !N.mod_small in Ehead
        by (change (16 ^ N.of_nat 8)%N with (Z.to_N (2 ^ 32)); lia).
      lia.
Qed.

Lemma hexdigest_injective_witness : take 8 (h_init ++ [0]) = h_init.
Proof.
  apply (hexdigest_injective (take 8 (h_init ++ [0])) h_init);
    [apply state_ok_init | apply state_ok_init | vm_compute; reflexivity].
Defined.

(** ** [sha256] and the functional definition *)

Section Refinement.

Lemma pad_fips data : fits_length_field data -> pad data = Some (fips_pad data).
Proof.
  intros Hfit. destruct (pad_Some data Hfit) as [msg Hmsg]. rewrite Hmsg.
  destruct (pad_inv data msg Hmsg) as (packed & Hp & ->).
  unfold pack_Q in Hp. destruct (decide _) as [Hr|]; [|discriminate].
  injection Hp as <-. unfold fips_pad. do 4 f_equal.
  cbn [map]. rewrite !Z.shiftr_div_pow2 by lia. reflexivity.
Qed.

Lemma unpack_16I_words n : forall l : list byte,
  length l = (4 * n)%nat ->
  map (fun i => be_int (slice l (4 * i) (4 * i + 4))) (seq 0 n) = words_of l.
Proof.
  induction n as [|n IH]; intros l Hl.
  - destruct l; [reflexivity | discriminate].
  - destruct l as [|b0 [|b1 [|b2 [|b3 rest]]]]; try (simpl in Hl; lia).
    cbn [seq map words_of]. f_equal.
    + change (slice (b0 :: b1 :: b2 :: b3 :: rest) (4 * 0) (4 * 0 + 4))
        with [b0; b1; b2; b3]. apply be_int_4.
    + rewrite <- seq_shift, map_map, <- (IH rest) by (simpl in Hl; lia).
      apply map_ext. intros i. f_equal. unfold slice.
      replace (4 * Datatypes.S i)%nat with (4 + 4 * i)%nat by lia.
      replace (4 + 4 * i + 4 - (4 + 4 * i))%nat with (4 * i + 4 - 4 * i)%nat by lia.
      reflexivity.
Qed.

Lemma extend_w_fips i w :
  i = length w -> (16 <= i)%nat -> Forall is_word w ->
  extend_w i w = Some (fips_extend w) /\ Forall is_word (fips_extend w).
Proof.
  intros Hi H16 Hw.
  destruct (extend_w_spec i w Hi H16 Hw) as (w16 & w15 & w7 & w2 & E16 & E15 & E7 & E2 & H).
  unfold fips_extend. rewrite <- Hi.
  rewrite (nth_lookup_Some _ _ 0 _ E16), (nth_lookup_Some _ _ 0 _ E15),
    (nth_lookup_Some _ _ 0 _ E7), (nth_lookup_Some _ _ 0 _ E2).
  split; [exact H|].
  apply Forall_app. split; [exact Hw|].
  apply Forall_cons. split; [apply Z.mod_pos_bound; lia | apply Forall_nil; exact I].
Qed.

Lemma extend_w_loop_fips n : forall s w,
  length w = s -> (16 <= s)%nat -> Forall is_word w ->
  for_in extend_w (seq s n) w = Some (Nat.iter n fips_extend w).
Proof.
  induction n as [|n IH]; intros s w Hlen Hs Hw; [reflexivity|].
  destruct (extend_w_fips s w (eq_sym Hlen) Hs Hw) as [Hstep Hw'].
  cbn [seq for_in]. rewrite Hstep. cbn [mbind option_bind].
  rewrite (IH (Datatypes.S s) (fips_extend w)); [| |lia|exact Hw'].
  - rewrite Nat.iter_succ_r. reflexivity.
  - unfold fips_extend. rewrite length_app. simpl. lia.
Qed.

Lemma schedule_fips chunk :
  length chunk = 64%nat -> schedule chunk = Some (fips_schedule chunk).
Proof.
  intros Hlen. destruct (unpack_16I_spec chunk Hlen) as (w0 & Hw0 & Hl0 & Hword & _).
  unfold schedule. rewrite Hw0. cbn [mbind option_bind].
  rewrite (extend_w_loop_fips 48 16 w0 Hl0 (Nat.le_refl _) Hword).
  unfold fips_schedule. do 2 f_equal.
  unfold unpack_16I in Hw0. rewrite decide_True in Hw0 by exact Hlen.
  injection Hw0 as <-. apply (unpack_16I_words 16). exact Hlen.
Qed.

Lemma process_chunk_fips msg cs h :
  (cs + 64 <= length msg)%nat -> length h = 8%nat -> Forall is_word h ->
  process_chunk msg cs (K_init, h)
  = Some (K_init, fips_compress h (slice msg cs (cs + 64))).
Proof.
  intros Hcs Hh Hw.
  assert (length (slice msg cs (cs + 64)) = 64%nat) as Hlen
    by (rewrite slice_length by lia; lia).
  destruct (process_chunk_spec msg cs K_init h Hcs K_init_length Hh)
    as (w & s0 & s64 & Hsched & Hs0 & Hs64 & _ & Hrun).
  rewrite (schedule_fips _ Hlen) in Hsched. injection Hsched as <-.
  destruct (rounds_prefix_fips 64 s0) as (s64' & Hrun' & _ & Hwork & _).
  - destruct (unpack_h_inv _ _ _ _ Hs0) as (_ & -> & _). rewrite K_init_length. lia.
  - destruct (unpack_h_inv _ _ _ _ Hs0) as (_ & _ & _ & -> & _).
    destruct (schedule_spec _ Hlen) as (? & w' & _ & Hw' & Hl' & _).
    rewrite (schedule_fips _ Hlen) in Hw'. injection Hw' as <-. lia.
  - destruct (unpack_h_inv _ _ _ _ Hs0) as (_ & _ & _ & _ & ->). exact Hw.
  - unfold rounds in Hs64. assert (s64' = s64) as -> by congruence.
    destruct (unpack_h_inv _ _ _ _ Hs0) as (_ & EK & _ & Ew & Ework).
    rewrite Hrun, Hwork, EK, Ew, Ework. reflexivity.
Qed.

Lemma fips_compress_ok h block :
  length h = 8%nat -> length (fips_compress h block) = 8%nat /\
                      Forall is_word (fips_compress h block).
Proof.
  intros Hh. unfold fips_compress, add_words. split.
  - rewrite length_zip_with.
    assert (forall n v, length v = 8%nat ->
              length (fips_steps K_init (fips_schedule block) n v) = 8%nat) as Hsteps.
    { induction n as [|n IH]; intros v Hv; [exact Hv|].
      unfold fips_steps. rewrite seq_S, fold_left_app. cbn [fold_left Nat.add].
      fold (fips_steps K_init (fips_schedule block) n v).
      specialize (IH v Hv).
      destruct (fips_steps K_init (fips_schedule block) n v)
        as [|a [|b [|c [|d [|e [|f [|g [|hh [|]]]]]]]]]; try discriminate.
      reflexivity. }
    rewrite (Hsteps 64%nat h Hh). lia.
  - apply Forall_forall. intros z Hz.
    apply elem_of_lookup_zip_with in Hz. destruct Hz as (i & x & y & -> & _).
    apply Z.mod_pos_bound. lia.
Qed.

Lemma range_64_one : range_64 64 = [0%nat].
Proof. reflexivity. Qed.

Lemma chunk_loop_fips n : forall msg h,
  length msg = (64 * n)%nat -> length h = 8%nat -> Forall is_word h ->
  chunk_loop msg (K_init, h) = Some (K_init, fold_left fips_compress (blocks n msg) h).
Proof.
  induction n as [|n IH]; intros msg h Hlen Hh Hw.
  - destruct msg; [reflexivity | discriminate].
  - rewrite <- (take_drop 64 msg) at 1.
    assert (length (take 64 msg) = 64%nat) as Hb by (rewrite length_take; lia).
    rewrite chunk_loop_app by (rewrite Hb; reflexivity).
    assert (chunk_loop (take 64 msg) (K_init, h)
            = Some (K_init, fips_compress h (take 64 msg))) as Hfirst.
    { unfold chunk_loop. rewrite Hb, range_64_one. cbn [for_in].
      rewrite process_chunk_fips by (auto; lia).
      cbn [mbind option_bind]. change (slice (take 64 msg) 0 (0 + 64))
        with (take 64 (take 64 msg)). rewrite take_take, Nat.min_id. reflexivity. }
    rewrite Hfirst. cbn [mbind option_bind].
    destruct (fips_compress_ok h (take 64 msg) Hh) as [Hh' Hw'].
    rewrite (IH (drop 64 msg) _); [reflexivity | | exact Hh' | exact Hw'].
    rewrite length_drop. lia.
Qed.

End Refinement.

(** X14.  End to end, [sha256] is the functional SHA-256 of FIPS 180-4:
    for an input that fits the length field it returns the hexadecimal
    form of [fips_sha256], the fold of the compression function over the
    blocks of the padded message. *)
Theorem sha256_refines_fips (data : list byte) :
  fits_length_field data -> sha256 data = Some (hexlify (fips_sha256 data)).
Proof.
  intros Hfit. pose proof (pad_fips data Hfit) as Hpad.
  pose proof (pad_length_mod _ _ Hpad) as Hmod.
  pose proof (Nat.div_mod_eq (length (fips_pad data)) 64) as Hdm.
  rewrite Hmod, Nat.add_0_r in Hdm.
  pose proof (chunk_loop_fips _ (fips_pad data) h_init Hdm eq_refl
                (proj2 (proj2 state_ok_init))) as Hloop.
  unfold sha256, _sha256. rewrite Hpad. cbn [mbind option_bind].
  rewrite Hloop. cbn [mbind option_bind snd]. f_equal.
  unfold fips_sha256. apply hexdigest_hexlify.
  destruct (chunk_loop_ok (fips_pad data) (K_init, h_init) Hmod state_ok_init)
    as (Kh & Hloop' & _ & _ & Hw).
  rewrite Hloop in Hloop'. injection Hloop' as <-. exact Hw.
Qed.

Lemma sha256_refines_fips_witness :
  sha256 [x61; x62; x63] = Some (hexlify (fips_sha256 [x61; x62; x63])).
Proof. apply (sha256_refines_fips [x61; x62; x63]). vm_compute. reflexivity. Defined.

(** ** Text arguments *)

Section Text.

Lemma utf8_encode_char_ascii c :
  (c < 128)%N -> utf8_encode_char c = Some [byte_of_N c].
Proof.
  intros Hc. unfold utf8_encode_char.
  replace (c <? 128)%N with true by (symmetry; apply N.ltb_lt; exact Hc).
  reflexivity.
Qed.

Lemma utf8_encode_char_surrogate c :
  (0xD800 <= c <= 0xDFFF)%N -> utf8_encode_char c = None.
Proof.
  intros [H1 H2]. unfold utf8_encode_char.
  replace (c <? 128)%N with false by (symmetry; apply N.ltb_ge; lia).
  replace (c <? 2048)%N with false by (symmetry; apply N.ltb_ge; lia).
  replace (55296 <=? c)%N with true by (symmetry; apply N.leb_le; exact H1).
  replace (c <=? 57343)%N with true by (symmetry; apply N.leb_le; exact H2).
  reflexivity.
Qed.

Lemma utf8_encode_char_scalar c :
  is_scalar c ->
  exists bs, utf8_encode_char c = Some bs /\ (1 <= length bs <= 4)%nat.
Proof.
  intros Hc. unfold is_scalar in Hc. unfold utf8_encode_char.
  destruct (N.ltb_spec c 128); [eexists; split; [reflexivity | simpl; lia]|].
  destruct (N.ltb_spec c 2048); [eexists; split; [reflexivity | simpl; lia]|].
  destruct (N.leb_spec 55296 c); destruct (N.leb_spec c 57343); cbn [andb]; try lia.
  - destruct (N.ltb_spec c 65536); [eexists; split; [reflexivity | simpl; lia]|].
    destruct (N.ltb_spec c 1114112); [eexists; split; [reflexivity | simpl; lia]|]. lia.
  - destruct (N.ltb_spec c 65536); [eexists; split; [reflexivity | simpl; lia]|]. lia.
Qed.

Lemma encode_utf8_scalar s :
  Forall is_scalar s ->
  exists bs, encode_utf8 s = Some bs /\ (length s <= length bs <= 4 * length s)%nat.
Proof.
  induction 1 as [|c s Hc _ (rest & Hrest & Hlen)].
  - exists []. split; [reflexivity | simpl; lia].
  - destruct (utf8_encode_char_scalar c Hc) as (bs & Hbs & Hl).
    exists (bs ++ rest). cbn [encode_utf8]. rewrite Hbs. cbn [mbind option_bind].
    rewrite Hrest. cbn [mbind option_bind]. split; [reflexivity|].
    rewrite length_app. simpl. lia.
Qed.

End Text.

(** X15.  A [str] of ASCII characters hashes like the [bytes] with the
    same values. *)
Theorem sha256_ascii_text (s : list N) :
  Forall (fun c => c < 128)%N s ->
  sha256_data (Str s) = sha256_data (Bytes (map byte_of_N s)).
Proof.
  intros Hs. unfold sha256_data, _sha256_data.
  assert (encode_utf8 s = Some (map byte_of_N s)) as ->; [|reflexivity].
  induction Hs as [|c s Hc _ IH]; [reflexivity|].
  cbn [encode_utf8 map]. rewrite utf8_encode_char_ascii by exact Hc.
  cbn [mbind option_bind]. rewrite IH. reflexivity.
Qed.

Lemma sha256_ascii_text_witness :
  sha256_data (Str [0x61; 0x62; 0x63]%N) = sha256_data (Bytes [x61; x62; x63]).
Proof.
  apply (sha256_ascii_text [0x61; 0x62; 0x63]%N).
  repeat (constructor; [reflexivity|]). constructor.
Defined.

(** X16.  A [str] that holds a surrogate code point is not hashed: the
    encoding step raises [UnicodeEncodeError]. *)
Theorem sha256_surrogate_raises (s : list N) (c : N) :
  In c s -> (0xD800 <= c <= 0xDFFF)%N -> sha256_data (Str s) = None.
Proof.
  intros Hin Hc. unfold sha256_data, _sha256_data.
  assert (encode_utf8 s = None) as ->; [|reflexivity].
  induction s as [|c' s IH]; [destruct Hin|].
  cbn [encode_utf8]. destruct Hin as [->|Hin].
  - rewrite utf8_encode_char_surrogate by exact Hc. reflexivity.
  - destruct (utf8_encode_char c') as [bs|]; [|reflexivity].
    cbn [mbind option_bind]. rewrite (IH Hin). reflexivity.
Qed.

Lemma sha256_surrogate_raises_witness :
  sha256_data (Str [0x61; 0xD83D; 0x62]%N) = None.
Proof.
  apply (sha256_surrogate_raises [0x61; 0xD83D; 0x62]%N 0xD83D%N).
  - right. left. reflexivity.
  - lia.
Defined.

(** X17.  Any other text is hashed: a [str] of code points that are not
    surrogates, short enough for its UTF-8 form to fit the length field,
    gives a digest of 64 characters, the one of its UTF-8 form. *)
Theorem sha256_text_total (s : list N) :
  Forall is_scalar s -> 32 * len s < 2 ^ 64 ->
  exists encoded digest,
    encode_utf8 s = Some encoded /\ sha256_data (Str s) = Some digest /\
    sha256 encoded = Some digest /\ String.length digest = 64%nat.
Proof.
  intros Hs Hlen. destruct (encode_utf8_scalar s Hs) as (encoded & Henc & Hl).
  assert (fits_length_field encoded) as Hfit
    by (unfold fits_length_field, len in *; lia).
  destruct (sha256_run encoded Hfit) as (msg & Kh & _ & _ & (_ & Hl8 & Hw) & H).
  exists encoded, (hexdigest Kh.2). split; [exact Henc|].
  split; [unfold sha256_data, _sha256_data; rewrite Henc; exact H|].
  split; [exact H|]. rewrite hexdigest_length, Hl8 by exact Hw. reflexivity.
Qed.

Lemma sha256_text_total_witness :
  exists digest,
    sha256_data (Str [0xE9; 0x20AC; 0x1F600]%N) = Some digest /\
    String.length digest = 64%nat.
Proof.
  destruct (sha256_text_total [0xE9; 0x20AC; 0x1F600]%N)
    as (encoded & digest & _ & Hd & _ & Hl).
  - repeat (constructor; [unfold is_scalar; lia|]). constructor.
  - vm_compute. reflexivity.
  - exists digest. split; [exact Hd | exact Hl].
Defined.

(** ** The self-test *)

Section SelfTest.

Lemma run_vectors_spec vs : forall all_pass out,
  Forall (fun v => fits_length_field v.1) vs ->
  exists (b : bool) out',
    run_vectors vs (all_pass, out) = Some (all_pass && b, out ++ out') /\
    (b = true <-> Forall vector_passes vs) /\
    length out' = (5 * length vs)%nat.
Proof.
  induction vs as [|[data expected] vs IH]; intros all_pass out Hfit.
  - exists true, []. cbn [run_vectors]. rewrite andb_true_r, app_nil_r.
    split; [reflexivity|]. split; [|reflexivity]. split; [constructor | reflexivity].
  - apply Forall_cons in Hfit. destruct Hfit as [Hd Hfit]. cbn [fst] in Hd.
    destruct (sha256_run data Hd) as (msg & Kh & _ & _ & _ & Hres).
    cbn [run_vectors run_vector]. rewrite Hres. cbn [mbind option_bind].
    set (result := hexdigest Kh.2) in *.
    destruct (IH (all_pass && String.eqb result expected)
                 (out ++ [String.append "[" (String.append
                            (if String.eqb result expected then "PASS" else "FAIL") "]");
                          String.append "  Input:    " (repr_bytes data);
                          String.append "  Expected: " expected;
                          String.append "  Got:      " result;
                          EmptyString]%string) Hfit)
      as (b & out' & Hrun & Hb & Hlen).
    exists (String.eqb result expected && b). eexists.
    rewrite Hrun, andb_assoc, <- app_assoc. split; [reflexivity|]. split.
    + rewrite andb_true_iff, Hb, Forall_cons.
      change (vector_passes (data, expected)) with (sha256 data = Some expected).
      rewrite Hres, String.eqb_eq. split.
      * intros [-> H]. split; [reflexivity | exact H].
      * intros [[= ->] H]. split; [reflexivity | exact H].
    + rewrite length_app, Hlen. simpl. lia.
Qed.

End SelfTest.

(** X18.  The self-test tells the truth.  Over a table of vectors that
    fit the length field it runs to the end, prints four lines and five
    more for each vector, and its last line says that all tests passed
    exactly when every expected string is the digest of its input. *)
Theorem main_verdict (vs : list (list byte * string)) :
  Forall (fun v => fits_length_field v.1) vs ->
  exists out,
    main vs = Some out /\ length out = (4 + 5 * length vs)%nat /\
    ((Forall vector_passes vs /\ last out = Some "Overall: All tests passed!"%string) \/
     (~ Forall vector_passes vs /\ last out = Some "Overall: Some tests failed!"%string)).
Proof.
  intros Hfit. unfold main.
  destruct (run_vectors_spec vs true
              ["SHA-256 Test Vectors (NIST FIPS 180-4):"%string; rule] Hfit)
    as (b & out' & Hrun & Hb & Hlen).
  rewrite Hrun. cbn [mbind option_bind andb]. eexists. split; [reflexivity|]. split.
  - rewrite !length_app, Hlen. simpl. lia.
  - rewrite last_app. cbn [last]. destruct b.
    + left. split; [apply Hb; reflexivity | reflexivity].
    + right. split; [|reflexivity]. intros H. apply Hb in H. discriminate.
Qed.

Lemma main_verdict_witness :
  exists out,
    main test_vectors = Some out /\ length out = 19%nat /\
    last out = Some "Overall: All tests passed!"%string.
Proof.
  destruct (main_verdict test_vectors) as (out & Hout & Hlen & Hverdict).
  - repeat (constructor; [vm_compute; reflexivity|]). constructor.
  - exists out. split; [exact Hout|]. split; [exact Hlen|].
    revert Hout. vm_compute. intros [= <-]. reflexivity.
Defined.

(** ** Hashing in pieces *)

(** X19.  A prefix made of whole blocks can be hashed ahead of the rest:
    the digest of [p ++ rest] comes from the state reached on the chunks
    of [p], continued over [rest] and the padding, whose zero count and
    length field are those of the whole input. *)
Theorem sha256_by_parts (p rest : list byte) :
  (length p mod 64 = 0)%nat -> fits_length_field (p ++ rest) ->
  exists packed,
    pack_Q (len (p ++ rest) * 8) = Some packed /\
    sha256 (p ++ rest) =
      (chunk_loop p (K_init, h_init)
       ≫= chunk_loop (rest ++ [x80] ++ repeat x00 (zero_count (p ++ rest)) ++ packed))
      ≫= fun Kh => Some (hexdigest Kh.2).
Proof.
  intros Hp Hfit.
  destruct (pad_Some _ Hfit) as [msg Hmsg].
  destruct (pad_inv _ _ Hmsg) as (packed & Hpk & ->).
  exists packed. split; [exact Hpk|].
  unfold sha256, _sha256. rewrite Hmsg. cbn [mbind option_bind].
  rewrite <- app_assoc, chunk_loop_app by exact Hp. reflexivity.
Qed.

Lemma sha256_by_parts_witness :
  exists packed,
    sha256 (repeat x61 64 ++ [x62]) =
      (chunk_loop (repeat x61 64) (K_init, h_init)
       ≫= chunk_loop ([x62] ++ [x80] ++ repeat x00 (zero_count (repeat x61 64 ++ [x62]))
                         ++ packed))
      ≫= fun Kh => Some (hexdigest Kh.2).
Proof.
  destruct (sha256_by_parts (repeat x61 64) [x62]) as (packed & _ & H).
  - reflexivity.
  - vm_compute. reflexivity.
  - exists packed. exact H.
Defined.
